(** * worldrunes: the composition solver and the unlock filter

    A shallow embedding of [lib/solver.ts] (combination generator,
    composition validator, seeded search) and of the filtering part of
    [components/ResultsDisplay.tsx], with the properties stated about them.

    Conventions of the embedding:
    - array lengths and team sizes are [nat]; unit costs, the search
      counters, the per-size budgets and the generator's budget (which the
      solver computes by a subtraction that may reach zero) are [Z];
    - a JavaScript [Map] or [Set] whose iteration order is observed is an
      insertion-ordered list;
    - a generator is the list of the values it yields, in order; a consumer
      that leaves its [for .. of] loop early reads a prefix of that list;
    - [Array.prototype.sort] is stable; every comparator in the source is a
      total preorder, for which the stable sort is the insertion sort below;
    - the catalog ([units.json], [regions.json]) is a parameter;
    - [console.log] output and the debug element are not modelled. *)

From Stdlib Require Import String Ascii.
From Stdlib Require Import List ZArith Lia Bool Arith Sorted Permutation.
Import ListNotations.

Set Implicit Arguments.

Local Open Scope nat_scope.

(* ================================================================= *)
(** ** Data model ([types.ts]) *)

Record Unit : Type := mkUnit {
  id : string;
  name : string;
  cost : Z;
  regions : list string;
  unlockable : bool  (* optional in the source; absent reads as false *)
}.

Record Region : Type := mkRegion {
  region_id : string;
  region_name : string;
  requiredUnits : option nat
}.

Record EmblemAssignment : Type := mkAssignment {
  unitId : string;
  region : string
}.

Record TeamComposition : Type := mkComposition {
  units : list Unit;
  emblemAssignments : list EmblemAssignment;
  activeRegions : list string
}.

Record SolverConfig : Type := mkConfig {
  maxBoardSize : nat;
  minUnits : nat;
  maxUnits : nat;
  cfg_requiredUnits : option (list string);
  cfg_excludedUnits : option (list string)
}.

Record SolverResult : Type := mkResult {
  composition : TeamComposition;
  unitCount : nat;    (* always written as an array length *)
  regionCount : nat;  (* likewise *)
  totalCost : option Z  (* [totalCost?: number] *)
}.

(* ================================================================= *)
(** ** Array helpers *)

(** [arr.includes(s)] on an array of strings. *)
Definition includes (l : list string) (s : string) : bool :=
  existsb (String.eqb s) l.

(** [Array.prototype.sort(cmp)]: the sort is stable, so for a comparator that
    is a total preorder it is the stable insertion sort. [cmp a b] is the
    comparator's result. *)
Fixpoint insert_by {A} (cmp : A -> A -> Z) (x : A) (l : list A) : list A :=
  match l with
  | [] => [x]
  | y :: r => if (cmp x y <=? 0)%Z then x :: y :: r else y :: insert_by cmp x r
  end.

Fixpoint sort_by {A} (cmp : A -> A -> Z) (l : list A) : list A :=
  match l with
  | [] => []
  | x :: r => insert_by cmp x (sort_by cmp r)
  end.

(** [arr.sort()] on strings: ascending code-unit order. *)
Definition string_cmp (a b : string) : Z :=
  match String.compare a b with Lt => (-1)%Z | Eq => 0%Z | Gt => 1%Z end.

Definition sort_strings (l : list string) : list string := sort_by string_cmp l.

(** [arr.join(sep)]. *)
Definition join (sep : string) (l : list string) : string := String.concat sep l.

(** A [for .. of] loop whose body may [break]: the body returns the new
    state and whether it broke out. *)
Fixpoint for_of {A S} (xs : list A) (body : A -> S -> S * bool) (st : S) : S :=
  match xs with
  | [] => st
  | x :: r =>
      let '(st', brk) := body x st in
      if brk then st' else for_of r body st'
  end.

(* ================================================================= *)
(** ** Insertion-ordered maps and sets of strings *)

Definition StrMap := list (string * nat).

Fixpoint map_get (m : StrMap) (k : string) : option nat :=
  match m with
  | [] => None
  | (k', v) :: r => if String.eqb k k' then Some v else map_get r k
  end.

(** [m.set(k, v)]: an existing key keeps its place, a new one goes last. *)
Fixpoint map_set (m : StrMap) (k : string) (v : nat) : StrMap :=
  match m with
  | [] => [(k, v)]
  | (k', v') :: r =>
      if String.eqb k k' then (k', v) :: r else (k', v') :: map_set r k v
  end.

Definition map_keys (m : StrMap) : list string := map fst m.

(** [m.get(k) || 0]. *)
Definition get_or_0 (m : StrMap) (k : string) : nat :=
  match map_get m k with Some v => v | None => 0 end.

(** [s.add(k)] on an insertion-ordered set. *)
Definition set_add (s : list string) (k : string) : list string :=
  if includes s k then s else s ++ [k].

(* ================================================================= *)
(** ** The combination generator *)

Section Generator.
Context {T : Type}.

(** [backtrack(start)], with [rest] the items from index [start] on,
    [current] the items chosen so far and [count] the emissions so far.
    Returns the subsets yielded by this call and the updated [count]. *)
Fixpoint backtrack (size : nat) (maxResults : Z) (rest : list T)
         (current : list T) (count : Z) {struct rest} : list (list T) * Z :=
  if (count >=? maxResults)%Z then ([], count)
  else if length current =? size then ([current], (count + 1)%Z)
  else if length rest <? size - length current then ([], count)
  else
    (fix loop (l : list T) (count : Z) {struct l} : list (list T) * Z :=
       match l with
       | [] => ([], count)
       | x :: tl =>
           if (count <? maxResults)%Z then
             let '(out1, c1) := backtrack size maxResults tl (current ++ [x]) count in
             let '(out2, c2) := loop tl c1 in
             (out1 ++ out2, c2)
           else ([], count)
       end) rest count.

Definition generateCombinations (items : list T) (size : nat) (maxResults : Z)
  : list (list T) :=
  if size =? 0 then [[]]
  else if length items <? size then []
  else if size =? length items then [items]
  else fst (backtrack size maxResults items [] 0%Z).

(** The enumeration the specification describes: the [k]-element sublists of
    [l], choosing an item and recursing on the items after it, so that the
    sublists come in lexicographic order of the chosen positions. *)
Fixpoint combs (l : list T) (k : nat) {struct l} : list (list T) :=
  match k with
  | 0 => [[]]
  | S k' =>
      match l with
      | [] => []
      | x :: tl => map (cons x) (combs tl k') ++ combs tl k
      end
  end.

(** The [for] loop of [backtrack] on its own, for a fixed [current]. *)
Definition bt_loop (size : nat) (maxResults : Z) (current : list T)
  : list T -> Z -> list (list T) * Z :=
  fix loop (l : list T) (count : Z) {struct l} : list (list T) * Z :=
    match l with
    | [] => ([], count)
    | x :: tl =>
        if (count <? maxResults)%Z then
          let '(out1, c1) := backtrack size maxResults tl (current ++ [x]) count in
          let '(out2, c2) := loop tl c1 in
          (out1 ++ out2, c2)
        else ([], count)
    end.

(** What a call that may still emit [m - count] subsets yields of [all]. *)
Definition emitted (m count : Z) (all : list (list T)) : list (list T) * Z :=
  let out := firstn (Z.to_nat (m - count)) all in
  (out, (count + Z.of_nat (length out))%Z).
End Generator.

(** Lexicographic order on index tuples. *)
Inductive lex_lt : list nat -> list nat -> Prop :=
| lex_nil : forall y l, lex_lt [] (y :: l)
| lex_head : forall x y l l', x < y -> lex_lt (x :: l) (y :: l')
| lex_tail : forall x l l', lex_lt l l' -> lex_lt (x :: l) (x :: l').


(* ================================================================= *)
(** ** The catalog ([data.ts]) and the composition validator *)

Section Solver.
(** The two JSON data files are not part of the verified code: the catalog
    is a parameter of everything below. *)
Variable unitsData : list Unit.
Variable regionsData : list Region.

Definition getRegionById (rid : string) : option Region :=
  find (fun r => String.eqb (region_id r) rid) regionsData.

(** [region.requiredUnits || 1]: absent and zero both read as one. *)
Definition required_or_1 (r : Region) : nat :=
  match requiredUnits r with
  | Some (S n) => S n
  | _ => 1
  end.

(** [getRegionById(e)?.requiredUnits || 1]. *)
Definition required_of (e : string) : nat :=
  match getRegionById e with
  | Some r => required_or_1 r
  | None => 1
  end.

Definition countRegionUnits (team : list Unit) : StrMap :=
  fold_left
    (fun m u => fold_left (fun m r => map_set m r (get_or_0 m r + 1)) (regions u) m)
    team [].

Record Validation : Type := mkValidation {
  valid : bool;
  v_activeRegions : list string;
  v_emblemAssignments : list EmblemAssignment
}.

(** The loop over [allRegionsToCheck]: a region missing from the catalog is
    skipped, one whose count reaches its requirement is active. *)
Definition active_of (counts : StrMap) (toCheck : list string) : list string :=
  fold_left
    (fun act rid =>
       match getRegionById rid with
       | None => act
       | Some r => if required_or_1 r <=? get_or_0 counts rid then act ++ [rid] else act
       end)
    toCheck [].

Definition isValidComposition (teamUnits : list Unit) (emblem1 emblem2 : string)
  : Validation :=
  let regionCounts := countRegionUnits teamUnits in
  match find (fun u => negb (includes (regions u) emblem1)) teamUnits with
  | None => mkValidation false [] []
  | Some unitForEmblem1 =>
      let assignments1 := [mkAssignment (id unitForEmblem1) emblem1] in
      let regionCounts := map_set regionCounts emblem1 (get_or_0 regionCounts emblem1 + 1) in
      match find (fun u => negb (includes (regions u) emblem2)) teamUnits with
      | None => mkValidation false [] []
      | Some unitForEmblem2 =>
          let assignments := assignments1 ++ [mkAssignment (id unitForEmblem2) emblem2] in
          let regionCounts := map_set regionCounts emblem2 (get_or_0 regionCounts emblem2 + 1) in
          let allRegionsToCheck :=
            set_add (set_add (map_keys regionCounts) emblem1) emblem2 in
          let active := active_of regionCounts allRegionsToCheck in
          if length active <? 4
          then mkValidation false active []
          else mkValidation true active assignments
      end
  end.

(* --------------------------------------------------------------- *)
(** ** Pool filtering *)

Definition filterUnits (us : list Unit) (config : SolverConfig) : list Unit :=
  let filtered := us in
  let filtered :=
    match cfg_requiredUnits config with
    | Some (r :: rs) => filter (fun u => includes (r :: rs) (id u)) filtered
    | _ => filtered
    end in
  let filtered :=
    match cfg_excludedUnits config with
    | Some (e :: es) => filter (fun u => negb (includes (e :: es) (id u))) filtered
    | _ => filtered
    end in
  sort_by
    (fun a b =>
       ((if unlockable a then 1 else 0) - (if unlockable b then 1 else 0))%Z)
    filtered.

(** The solver's local helper [uniqueUnits]: first occurrence of each id. *)
Fixpoint uniqueUnits_from (seen : list string) (arr : list Unit) : list Unit :=
  match arr with
  | [] => []
  | u :: r =>
      if includes seen (id u) then uniqueUnits_from seen r
      else u :: uniqueUnits_from (seen ++ [id u]) r
  end.

Definition uniqueUnits (arr : list Unit) : list Unit := uniqueUnits_from [] arr.

Definition MAX_TOTAL_RESULTS : Z := 2000.

Definition getMaxCombinationsForSize (size unitCount : nat) : Z :=
  if size <=? 2 then 10000
  else if size <=? 3 then 5000
  else if size <=? 4 then 2000
  else if size <=? 5 then 50000
  else if size <=? 6 then 20000
  else if size <=? 7 then 5000
  else 2000.

(* --------------------------------------------------------------- *)
(** ** The search state

    [results] and [seenCompositions] live for the whole run; the three
    counters are the locals declared afresh in every team-size iteration.
    [validatorCalls] is the call trace of [isValidComposition]: the team
    of every invocation, most recent first. *)

Record SearchState : Type := mkState {
  results : list SolverResult;
  seenCompositions : list string;
  checkedCount : Z;
  validCount : Z;
  invalidCount : Z;
  validatorCalls : list (list Unit)
}.

Record GateRecord : Type := mkGate {
  g_size : nat;
  g_smartSoFar : nat;
  g_bruteSoFar : nat;
  g_attempted : bool
}.

Definition initialState : SearchState := mkState [] [] 0 0 0 [].

Definition bump_checked (st : SearchState) : SearchState :=
  mkState (results st) (seenCompositions st) (checkedCount st + 1)
          (validCount st) (invalidCount st) (validatorCalls st).

Definition bump_valid (st : SearchState) : SearchState :=
  mkState (results st) (seenCompositions st) (checkedCount st)
          (validCount st + 1) (invalidCount st) (validatorCalls st).

Definition bump_invalid (st : SearchState) : SearchState :=
  mkState (results st) (seenCompositions st) (checkedCount st)
          (validCount st) (invalidCount st + 1) (validatorCalls st).

Definition record_call (team : list Unit) (st : SearchState) : SearchState :=
  mkState (results st) (seenCompositions st) (checkedCount st)
          (validCount st) (invalidCount st) (team :: validatorCalls st).

Definition reset_counters (st : SearchState) : SearchState :=
  mkState (results st) (seenCompositions st) 0 0 0 (validatorCalls st).

Definition results_full (st : SearchState) : bool :=
  (Z.of_nat (length (results st)) >=? MAX_TOTAL_RESULTS)%Z.

(** [teamUnits.map(u => u.id).sort().join(',')]. *)
Definition compositionKey (team : list Unit) : string :=
  join "," (sort_strings (map id team)).

(** [teamUnits.reduce((sum, u) => sum + u.cost, 0)]. *)
Definition sumCost (team : list Unit) : Z :=
  fold_left (fun sum u => (sum + cost u)%Z) team 0%Z.

(** The [if (!seenCompositions.has(key)) { ... results.push(...) }] block.
    [tc] is the [totalCost] property of the pushed object, [None] where
    the object literal has none. *)
Definition store (team : list Unit) (v : Validation) (tc : option Z)
           (st : SearchState) : SearchState :=
  let key := compositionKey team in
  if includes (seenCompositions st) key then st
  else
    mkState
      (results st ++
         [mkResult (mkComposition team (v_emblemAssignments v) (v_activeRegions v))
                   (length team) (length (v_activeRegions v)) tc])
      (seenCompositions st ++ [key])
      (checkedCount st) (validCount st) (invalidCount st) (validatorCalls st).

Section Search.
Variables emblem1 emblem2 : string.
Variable config : SolverConfig.

Definition filteredUnits : list Unit := filterUnits unitsData config.

(** Validation and storing as every smart-phase branch writes it: the
    pushed object has no [totalCost]. *)
Definition validateSmart (team : list Unit) (st : SearchState) : SearchState :=
  let v := isValidComposition team emblem1 emblem2 in
  let st := record_call team st in
  if valid v then store team v None (bump_valid st) else st.

Definition countWith (e : string) (team : list Unit) : nat :=
  length (filter (fun u => includes (regions u) e) team).

(** The quick pre-checks: [true] when the candidate goes on to the
    validator, [false] when the source takes [continue]. *)
Definition prefilter (team : list Unit) : bool :=
  let r1Req := required_of emblem1 in
  let r2Req := required_of emblem2 in
  let r1Count := countWith emblem1 team in
  let r2Count := countWith emblem2 team in
  if (r1Count + 1 <? r1Req) || (r2Count + 1 <? r2Req) then false
  else
    match find (fun u => negb (includes (regions u) emblem1)) team,
          find (fun u => negb (includes (regions u) emblem2)) team with
    | Some _, Some _ => true
    | _, _ => false
    end.

(** One of the four filler loops of the smart phase. They differ in two
    places only: [prechecked] says whether the loop has the quick
    pre-checks (Piltover and Yordle have, Shadow Isles and Void have
    not), [dedup] is what is applied to the concatenated team
    ([uniqueUnits], or nothing in the Void loop). *)
Definition fillerLoop (prechecked : bool) (dedup : list Unit -> list Unit)
           (size : nat) (maxForSize : Z)
           (e1Group e2Group : list Unit) (targonUnit : Unit)
           (pairs : list (list Unit)) (st : SearchState) : SearchState :=
  for_of (firstn 10 pairs)
    (fun pair st =>
       if (checkedCount st >=? maxForSize)%Z then (st, true)
       else
         let usedUnitIds :=
           map id e1Group ++ map id e2Group ++ [id targonUnit] ++ map id pair in
         let teamUnits := dedup (e1Group ++ e2Group ++ [targonUnit] ++ pair) in
         if length teamUnits =? size then
           let st := bump_checked st in
           if prechecked && negb (prefilter teamUnits) then (st, false)
           else
             let st := validateSmart teamUnits st in
             (st, (checkedCount st >=? maxForSize)%Z)
         else if length teamUnits <? size then
           let remainingUnits :=
             filter (fun u => negb (includes usedUnitIds (id u))) filteredUnits in
           let remainingSlots := size - length teamUnits in
           let fillCombos := generateCombinations remainingUnits remainingSlots 50 in
           let st :=
             for_of fillCombos
               (fun fillUnits st =>
                  if (checkedCount st >=? maxForSize)%Z then (st, true)
                  else
                    let fullTeam := dedup (teamUnits ++ fillUnits) in
                    let st := bump_checked st in
                    if prechecked && negb (prefilter fullTeam) then (st, false)
                    else (validateSmart fullTeam st, false))
               st in
           (st, (checkedCount st >=? maxForSize)%Z)
         else (st, (checkedCount st >=? maxForSize)%Z))
    st.

Definition inRegion (r : string) : list Unit :=
  filter (fun u => includes (regions u) r) filteredUnits.

Definition emblem1Units := inRegion emblem1.
Definition emblem2Units := inRegion emblem2.
Definition targonUnits := inRegion "targon".
Definition piltoverUnits := inRegion "piltover".
Definition yordleUnits := inRegion "yordle".
Definition shadowIslesUnits := inRegion "shadow-isles".
Definition voidUnits := inRegion "void".

(** The smart phase of one team size. *)
Definition smartPhase (size : nat) (maxForSize : Z) (st : SearchState)
  : SearchState :=
  let req1 := required_of emblem1 in
  let req2 := required_of emblem2 in
  let need1 := req1 - 1 in
  let need2 := req2 - 1 in
  if (5 <=? size) && (need1 <=? length emblem1Units)
     && (need2 <=? length emblem2Units) && (1 <=? length targonUnits)
  then
    let emblem1Groups :=
      if 0 <? need1 then generateCombinations emblem1Units need1 80 else [[]] in
    let emblem2Groups :=
      if 0 <? need2 then generateCombinations emblem2Units need2 80 else [[]] in
    let targonOptions := firstn 10 targonUnits in
    let piltoverPairs := generateCombinations piltoverUnits 2 20 in
    let yordlePairs := generateCombinations yordleUnits 2 20 in
    let shadowIslesPairs := generateCombinations shadowIslesUnits 2 20 in
    let voidPairs := generateCombinations voidUnits 2 20 in
    let done st := (checkedCount st >=? maxForSize)%Z in
    for_of (firstn 60 emblem1Groups)
      (fun e1Group st =>
         let st :=
           for_of (firstn 60 emblem2Groups)
             (fun e2Group st =>
                let st :=
                  for_of targonOptions
                    (fun targonUnit st =>
                       let st := fillerLoop true uniqueUnits size maxForSize
                                   e1Group e2Group targonUnit piltoverPairs st in
                       let st := fillerLoop true uniqueUnits size maxForSize
                                   e1Group e2Group targonUnit yordlePairs st in
                       let st := fillerLoop false uniqueUnits size maxForSize
                                   e1Group e2Group targonUnit shadowIslesPairs st in
                       let st := fillerLoop false (fun team => team) size maxForSize
                                   e1Group e2Group targonUnit voidPairs st in
                       (st, done st))
                    st in
                (st, done st))
             st in
         (st, done st))
      st
  else st.

(** The brute-force phase of one team size. *)
Definition bruteForcePhase (size : nat) (maxForSize : Z) (st : SearchState)
  : SearchState :=
  for_of (generateCombinations filteredUnits size (maxForSize - checkedCount st))
    (fun teamUnits st =>
       let st := bump_checked st in
       if results_full st then (st, true)
       else if (checkedCount st >? maxForSize)%Z then (st, true)
       else
         let v := isValidComposition teamUnits emblem1 emblem2 in
         let st := record_call teamUnits st in
         if valid v
         then (store teamUnits v (Some (sumCost teamUnits)) (bump_valid st), false)
         else (bump_invalid st, false))
    st.

(** The gate in front of the brute-force phase. *)
Definition bruteForceGate (st : SearchState) : bool :=
  length (results st) <? 10.

(** The body of the loop over team sizes, after its first line. *)
Definition sizeIteration (size : nat) (st : SearchState) : SearchState :=
  let st := reset_counters st in
  let maxForSize := getMaxCombinationsForSize size (length filteredUnits) in
  let st := smartPhase size maxForSize st in
  if bruteForceGate st then bruteForcePhase size maxForSize st else st.

Definition effectiveMaxUnits : nat :=
  Nat.min (Nat.min (maxUnits config) (maxBoardSize config)) (length filteredUnits).

(** [for (let size = config.minUnits; size <= effectiveMaxUnits; size++)]. *)
Definition sizes : list nat :=
  seq (minUnits config) (S effectiveMaxUnits - minUnits config).

Definition searchLoop (st : SearchState) : SearchState :=
  for_of sizes
    (fun size st =>
       if results_full st then (st, true) else (sizeIteration size st, false))
    st.

(** The loop over team sizes once more, now also keeping a record of every
    size iteration it enters: how many results the smart phase has accepted
    up to and including this iteration, how many the brute-force phase had
    accepted before it, and whether the brute-force phase was entered. *)
Fixpoint tracedLoop (ss : list nat) (st : SearchState) (smart brute : nat)
  : SearchState * list GateRecord :=
  match ss with
  | [] => (st, [])
  | size :: rest =>
      if results_full st then (st, [])
      else
        let st0 := reset_counters st in
        let maxForSize := getMaxCombinationsForSize size (length filteredUnits) in
        let st1 := smartPhase size maxForSize st0 in
        let smart' := smart + (length (results st1) - length (results st0)) in
        let attempted := bruteForceGate st1 in
        let st2 := if attempted then bruteForcePhase size maxForSize st1 else st1 in
        let brute' := brute + (length (results st2) - length (results st1)) in
        let '(final, tr) := tracedLoop rest st2 smart' brute' in
        (final, mkGate size smart' brute attempted :: tr)
  end.

(** The comparator of the final [results.sort]. *)
Definition compareResults (a b : SolverResult) : Z :=
  if negb (unitCount a =? unitCount b)
  then (Z.of_nat (unitCount a) - Z.of_nat (unitCount b))%Z
  else
    let aCost := match totalCost a with Some c => c | None => 0%Z end in
    let bCost := match totalCost b with Some c => c | None => 0%Z end in
    if negb (aCost =? bCost)%Z then (aCost - bCost)%Z
    else (Z.of_nat (regionCount b) - Z.of_nat (regionCount a))%Z.

Definition solveWorldRunes : list SolverResult :=
  if String.eqb emblem1 "" || String.eqb emblem2 "" then []
  else
    match getRegionById emblem1, getRegionById emblem2 with
    | Some _, Some _ => sort_by compareResults (results (searchLoop initialState))
    | _, _ => []
    end.
End Search.
End Solver.

(* ================================================================= *)
(** ** The unlock filter and the unlock suggestions ([ResultsDisplay.tsx]) *)

(** [u.unlockable && !unlockedSet.has(u.id)]. *)
Definition isLocked (unlockedIds : list string) (u : Unit) : bool :=
  unlockable u && negb (includes unlockedIds (id u)).

Definition targonSet : list string := ["aphelios"; "leona"; "zoe"; "taric"]%string.

Definition normalizeId (i : string) : string :=
  if includes targonSet i then "targon-1of4"%string else i.

Definition unitSignature (r : SolverResult) : string :=
  join "|" (sort_strings (map (fun u => normalizeId (id u)) (units (composition r)))).

(** [dedupMap]: a [Map] from signature to the first result that has it. *)
Definition dedup_has (m : list (string * SolverResult)) (sig : string) : bool :=
  existsb (fun e => String.eqb sig (fst e)) m.

Definition dedupMap (rs : list SolverResult) : list (string * SolverResult) :=
  fold_left
    (fun m r =>
       let sig := unitSignature r in
       if dedup_has m sig then m else m ++ [(sig, r)])
    rs [].

(** [xs.length ? Math.min(...xs) : 0]. *)
Definition min_or_0 (xs : list nat) : nat :=
  match xs with
  | [] => 0
  | x :: r => fold_left Nat.min r x
  end.

(** The [seen]-set filter that removes repeated ids from [lockedNeeded]. *)
Fixpoint distinct_by_id (seen : list string) (us : list Unit) : list Unit :=
  match us with
  | [] => []
  | u :: r =>
      if includes seen (id u) then distinct_by_id seen r
      else u :: distinct_by_id (seen ++ [id u]) r
  end.

Record UnlockView : Type := mkUnlockView {
  filtered : list SolverResult;
  minimalAll : nat;
  minimalFiltered : nat;
  filteredHasHigherMin : bool;
  unlockSuggestions : list Unit
}.

Definition applyUnlockFilter (rs : list SolverResult) (unlockedIds : list string)
  : UnlockView :=
  let filtered0 :=
    filter (fun r => negb (existsb (isLocked unlockedIds) (units (composition r)))) rs in
  let filtered1 := map snd (dedupMap filtered0) in
  let minAll := min_or_0 (map unitCount rs) in
  let minFiltered := min_or_0 (map unitCount filtered1) in
  let higher := minAll <? minFiltered in
  let minimalAllResults := filter (fun r => unitCount r =? minAll) rs in
  let lockedCount r :=
    Z.of_nat (length (filter (isLocked unlockedIds) (units (composition r)))) in
  let suggestions :=
    if higher && negb (length minimalAllResults =? 0) then
      let sortedByLocked :=
        sort_by (fun a b => (lockedCount a - lockedCount b)%Z) minimalAllResults in
      match sortedByLocked with
      | bestForUnlocks :: _ =>
          distinct_by_id [] (filter (isLocked unlockedIds) (units (composition bestForUnlocks)))
      | [] => []
      end
    else [] in
  mkUnlockView filtered1 minAll minFiltered higher suggestions.

(* ================================================================= *)
(** ** Predicates and concrete catalogs used in the statements *)

(** A stored result is well placed when at least four regions are active and
    its two emblem assignments are, in order, emblem 1 and emblem 2, each on
    a unit of the composition that does not carry that region itself. *)
Definition wellPlaced (emblem1 emblem2 : string) (r : SolverResult) : Prop :=
  4 <= length (activeRegions (composition r))
  /\ exists u1 u2,
       emblemAssignments (composition r)
       = [mkAssignment (id u1) emblem1; mkAssignment (id u2) emblem2]
       /\ In u1 (units (composition r)) /\ ~ In emblem1 (regions u1)
       /\ In u2 (units (composition r)) /\ ~ In emblem2 (regions u2).

Definition region_of (i : string) (n : nat) : Region := mkRegion i i (Some n).

Definition unit_of (i : string) (c : Z) (rs : list string) : Unit :=
  mkUnit i i c rs false.

Definition config5 : SolverConfig := mkConfig 9 5 5 None None.

Definition config45 : SolverConfig := mkConfig 9 4 5 None None.

(** Five units, one of them both in the first emblem's region and in Targon,
    and a pair of Void units. *)
Definition voidRegions : list Region :=
  [region_of "demacia" 2; region_of "noxus" 1; region_of "targon" 1;
   region_of "void" 2; region_of "ionia" 1]%string.

Definition voidUnitsData : list Unit :=
  [unit_of "x" 3 ["demacia"; "targon"]; unit_of "v1" 1 ["void"];
   unit_of "v2" 2 ["void"]; unit_of "f" 1 ["ionia"]; unit_of "g" 4 ["ionia"]]%string.

(** The composition the brute-force phase finds in that catalog. *)
Definition voidWholePool : SolverResult :=
  mkResult
    (mkComposition voidUnitsData
       [mkAssignment "v1" "demacia"; mkAssignment "x" "noxus"]
       ["demacia"; "targon"; "void"; "ionia"; "noxus"])%string
    5 5 (Some 11%Z).

(** Six interchangeable units that reach four regions at size four. *)
Definition plainRegions : list Region :=
  [region_of "a" 1; region_of "b" 1; region_of "c" 1; region_of "d" 1]%string.

Definition plainUnitsData : list Unit :=
  map (fun i => unit_of i 1 ["c"; "d"]%string) ["u1"; "u2"; "u3"; "u4"; "u5"; "u6"]%string.

(** Five units that all carry the first emblem's region, with a Shadow
    Isles pair. *)
Definition shadowRegions : list Region :=
  [region_of "a" 1; region_of "b" 1; region_of "targon" 1;
   region_of "shadow-isles" 2]%string.

Definition shadowUnitsData : list Unit :=
  [unit_of "t" 1 ["targon"; "a"]; unit_of "s1" 1 ["shadow-isles"; "a"];
   unit_of "s2" 1 ["shadow-isles"; "a"]; unit_of "f" 1 ["a"]; unit_of "g" 1 ["a"]]%string.

(** The same five units with the pair in Piltover instead. *)
Definition twinRegions : list Region :=
  [region_of "a" 1; region_of "b" 1; region_of "targon" 1;
   region_of "piltover" 2]%string.

Definition twinUnitsData : list Unit :=
  [unit_of "t" 1 ["targon"; "a"]; unit_of "s1" 1 ["piltover"; "a"];
   unit_of "s2" 1 ["piltover"; "a"]; unit_of "f" 1 ["a"]; unit_of "g" 1 ["a"]]%string.

(** Twenty-two units: eleven fillers, six Targon units, five Piltover units. *)
Definition crowdedRegions : list Region :=
  [region_of "a" 1; region_of "b" 1; region_of "targon" 1;
   region_of "piltover" 2; region_of "ionia" 3]%string.

Definition crowdedUnitsData : list Unit :=
  map (fun i => unit_of i 1 ["ionia"]%string)
      ["f01"; "f02"; "f03"; "f04"; "f05"; "f06"; "f07"; "f08"; "f09"; "f10"; "f11"]%string
  ++ map (fun i => unit_of i 2 ["targon"]%string)
         ["t1"; "t2"; "t3"; "t4"; "t5"; "t6"]%string
  ++ map (fun i => unit_of i 3 ["piltover"]%string)
         ["p1"; "p2"; "p3"; "p4"; "p5"]%string.

(** One result whose only unit is unlockable. *)
Definition lockedResult : SolverResult :=
  mkResult (mkComposition [mkUnit "k" "k" 1 ["a"] true]%string [] []) 1 4 None.

(* ================================================================= *)
(** ** Definitions for the further properties *)

(** The binomial coefficient, by Pascal's rule. *)
Fixpoint binomial (n k : nat) : nat :=
  match k with
  | 0 => 1
  | S k' =>
      match n with
      | 0 => 0
      | S n' => binomial n' k' + binomial n' k
      end
  end.

(** [c] is [l] with some items left out, the others in the order of [l]. *)
Inductive subseq {A : Type} : list A -> list A -> Prop :=
| subseq_nil : subseq [] []
| subseq_skip : forall x c l, subseq c l -> subseq c (x :: l)
| subseq_take : forall x c l, subseq c l -> subseq (x :: c) (x :: l).

(** How often region [r] is listed by the units of [team]. *)
Definition nativeCount (team : list Unit) (r : string) : nat :=
  count_occ string_dec (flat_map regions team) r.

(** What the two emblems add to region [r]. *)
Definition emblemBonus (emblem1 emblem2 r : string) : nat :=
  (if String.eqb r emblem1 then 1 else 0) + (if String.eqb r emblem2 then 1 else 0).

(** Region [r] is in the catalog and its native count plus the emblem bonus
    reaches its requirement. *)
Definition regionActive (regionsData : list Region) (team : list Unit)
           (emblem1 emblem2 r : string) : Prop :=
  exists reg, getRegionById regionsData r = Some reg
              /\ required_or_1 reg <= nativeCount team r + emblemBonus emblem1 emblem2 r.

(** Some unit of [team] does not carry region [e]. *)
Definition hasCarrier (team : list Unit) (e : string) : Prop :=
  exists u, In u team /\ ~ In e (regions u).
(** The test of the activation loop on one region id. *)
Definition activePred (regionsData : list Region) (counts : StrMap) (rid : string) : bool :=
  match getRegionById regionsData rid with
  | Some r => required_or_1 r <=? get_or_0 counts rid
  | None => false
  end.

(** A unit passes the allow list (when one is given and is not empty) and
    the deny list (likewise). *)
Definition allowed (config : SolverConfig) (u : Unit) : bool :=
  match cfg_requiredUnits config with
  | Some (r :: rs) => includes (r :: rs) (id u)
  | _ => true
  end
  && match cfg_excludedUnits config with
     | Some (e :: es) => negb (includes (e :: es) (id u))
     | _ => true
     end.

(** What the search guarantees of a team it validates in the iteration of
    team size [size]: its units come from the filtered pool, there are at
    most [size] of them, and exactly [size] when the catalog's ids are
    pairwise distinct. *)
Definition teamFacts (unitsData : list Unit) (config : SolverConfig)
           (size : nat) (team : list Unit) : Prop :=
  incl team (filteredUnits unitsData config)
  /\ length team <= size
  /\ (NoDup (map id unitsData) -> length team = size).

(** [r] is the record that the search pushes for a team it found valid in
    one of its size iterations. *)
Definition storedFrom (unitsData : list Unit) (regionsData : list Region)
           (emblem1 emblem2 : string) (config : SolverConfig) (r : SolverResult) : Prop :=
  exists size team c,
    In size (sizes unitsData config)
    /\ teamFacts unitsData config size team
    /\ valid (isValidComposition regionsData team emblem1 emblem2) = true
    /\ (c = None \/ c = Some (sumCost team))
    /\ r = mkResult
             (mkComposition team
                (v_emblemAssignments (isValidComposition regionsData team emblem1 emblem2))
                (v_activeRegions (isValidComposition regionsData team emblem1 emblem2)))
             (length team)
             (length (v_activeRegions (isValidComposition regionsData team emblem1 emblem2)))
             c.

(** The state invariant of the search: every result was stored from a
    validated team, and the seen keys are the keys of the results, without
    repetition. *)
Definition searchInv (unitsData : list Unit) (regionsData : list Region)
           (emblem1 emblem2 : string) (config : SolverConfig) (st : SearchState) : Prop :=
  Forall (storedFrom unitsData regionsData emblem1 emblem2 config) (results st)
  /\ seenCompositions st = map (fun r => compositionKey (units (composition r))) (results st)
  /\ NoDup (seenCompositions st).

(** [r.totalCost ?? 0], as the solver's final sort reads it. *)
Definition costOr0 (r : SolverResult) : Z :=
  match totalCost r with Some c => c | None => 0%Z end.

(** The budget invariant of one size iteration: the validations made since
    [n0] calls are no more than the candidates counted, and no more than the
    budget. *)
Definition withinBudget (n0 : nat) (maxForSize : Z) (s : SearchState) : Prop :=
  (Z.of_nat (length (validatorCalls s)) - Z.of_nat n0 <= checkedCount s)%Z
  /\ (Z.of_nat (length (validatorCalls s)) - Z.of_nat n0 <= maxForSize)%Z.

(* ================================================================= *)
(** ** Ranking and diversity reordering ([ResultsDisplay.tsx]) *)

(** [r.totalCost ?? units.reduce((sum, u) => sum + (u.cost || 0), 0)]; for a
    number [c], [c || 0] is [c]. *)
Definition getTotalCost (r : SolverResult) : Z :=
  match totalCost r with
  | Some c => c
  | None => fold_left (fun sum u => (sum + cost u)%Z) (units (composition r)) 0%Z
  end.

Definition getFourCostCount (r : SolverResult) : nat :=
  length (filter (fun u => (cost u =? 4)%Z) (units (composition r))).

(** The 32-bit rolling hash of the signature; ids are ASCII, so a character
    code is the code of a byte. *)
Definition signatureHash (r : SolverResult) : Z :=
  let sig := join "|" (sort_strings (map id (units (composition r)))) in
  fold_left
    (fun hash ch => ((hash * 31 + Z.of_nat (nat_of_ascii ch)) mod 2 ^ 32)%Z)
    (list_ascii_of_string sig) 0%Z.

(** [new Set(units.map(u => u.id))], in insertion order. *)
Definition unitIdSet (r : SolverResult) : list string :=
  fold_left set_add (map id (units (composition r))) [].

Definition symmetricDiffSize (a b : list string) : nat :=
  let common := length (filter (includes b) a) in
  length a + length b - 2 * common.

(** The comparator of the base sort. *)
Definition baseCompare (a b : SolverResult) : Z :=
  if negb (unitCount a =? unitCount b)
  then (Z.of_nat (unitCount a) - Z.of_nat (unitCount b))%Z
  else if negb (getTotalCost a =? getTotalCost b)%Z
  then (getTotalCost a - getTotalCost b)%Z
  else if negb (getFourCostCount a =? getFourCostCount b)
  then (Z.of_nat (getFourCostCount a) - Z.of_nat (getFourCostCount b))%Z
  else (signatureHash a - signatureHash b)%Z.

(** The condition of the inner [while] that collects a group. *)
Definition sameGroup (current r : SolverResult) : bool :=
  (unitCount r =? unitCount current)
  && (getTotalCost r =? getTotalCost current)%Z
  && (getFourCostCount r =? getFourCostCount current).

(** The longest prefix whose items satisfy [p], and the rest. *)
Fixpoint span {A} (p : A -> bool) (l : list A) : list A * list A :=
  match l with
  | [] => ([], [])
  | x :: r =>
      if p x then let '(g, rest) := span p r in (x :: g, rest) else ([], l)
  end.

(** The [for] loop that picks [bestIdx]: the first index of the largest
    difference to [prevSet]. [k] is the index of the head of [remaining]. *)
Fixpoint pickBest (prevSet : list string) (remaining : list SolverResult)
         (k bestIdx : nat) (bestDiff : Z) : nat :=
  match remaining with
  | [] => bestIdx
  | r :: rest =>
      let diff := Z.of_nat (symmetricDiffSize prevSet (unitIdSet r)) in
      if (diff >? bestDiff)%Z then pickBest prevSet rest (S k) k diff
      else pickBest prevSet rest (S k) bestIdx bestDiff
  end.

(** [remaining.splice(i, 1)]: the list without its item at index [i]. *)
Fixpoint removeAt {A} (i : nat) (l : list A) : list A :=
  match l, i with
  | [], _ => []
  | _ :: r, 0 => r
  | x :: r, S j => x :: removeAt j r
  end.

(** The [while (remaining.length)] loop; [n] counts its iterations, one per
    remaining item. [prev] is the last item of [ordered]. *)
Fixpoint greedy (n : nat) (prev : SolverResult) (remaining : list SolverResult)
  : list SolverResult :=
  match n with
  | 0 => []
  | S n' =>
      let bestIdx := pickBest (unitIdSet prev) remaining 0 0 (-1) in
      match nth_error remaining bestIdx with
      | Some best => best :: greedy n' best (removeAt bestIdx remaining)
      | None => []
      end
  end.

(** What is pushed to [regrouped] for one group. *)
Definition diversify (group : list SolverResult) : list SolverResult :=
  if length group <=? 1 then group
  else
    match sort_by (fun a b => (signatureHash a - signatureHash b)%Z) group with
    | first :: remaining => first :: greedy (length remaining) first remaining
    | [] => []
    end.

(** The outer [while (i < baseSorted.length)] loop on the items from index
    [i] on; [fuel] bounds its iterations, of which there are at most as many
    as items. *)
Fixpoint regroup (fuel : nat) (l : list SolverResult) : list SolverResult :=
  match fuel with
  | 0 => []
  | S fuel' =>
      match l with
      | [] => []
      | current :: _ =>
          let '(group, rest) := span (sameGroup current) l in
          diversify group ++ regroup fuel' rest
      end
  end.

(** [sortedResults], from the filtered list. *)
Definition rankResults (rs : list SolverResult) : list SolverResult :=
  let baseSorted := sort_by baseCompare rs in
  regroup (length baseSorted) baseSorted.

(** The key that orders the listing. *)
Definition rankKey (r : SolverResult) : nat * Z * nat :=
  (unitCount r, getTotalCost r, getFourCostCount r).

Definition rankKey_le (a b : nat * Z * nat) : Prop :=
  let '(u1, c1, f1) := a in
  let '(u2, c2, f2) := b in
  u1 < u2 \/ (u1 = u2 /\ ((c1 < c2)%Z \/ (c1 = c2 /\ f1 <= f2))).

(** [sortedResults[0]?.unitCount ?? 0]. *)
Definition minimalUnitCount (sortedResults : list SolverResult) : nat :=
  match sortedResults with
  | r :: _ => unitCount r
  | [] => 0
  end.

(** The number of locked units of a result, the sort key of [sortedByLocked]. *)
Definition lockedCount (unlockedIds : list string) (r : SolverResult) : nat :=
  length (filter (isLocked unlockedIds) (units (composition r))).

(* ================================================================= *)
(** ** The remaining catalog accessors ([data.ts]) *)

Definition getUnitById (unitsData : list Unit) (i : string) : option Unit :=
  find (fun u => String.eqb (id u) i) unitsData.

Definition getUnitsByRegion (unitsData : list Unit) (regionId : string) : list Unit :=
  filter (fun u => includes (regions u) regionId) unitsData.

Definition getAllRegionIds (regionsData : list Region) : list string :=
  map region_id regionsData.

Definition getUnitsByRegions (unitsData : list Unit) (regionIds : list string) : list Unit :=
  filter (fun u => existsb (includes regionIds) (regions u)) unitsData.

(* ================================================================= *)
(** ** Pieces of the page and of the board components *)

(** [toggleUnlocked] of [page.tsx], as a function of the previous list. *)
Definition toggleUnlocked (prev : list string) (i : string) : list string :=
  if includes prev i then filter (fun x => negb (String.eqb x i)) prev
  else prev ++ [i].

(** The grid cells of [TeamBoard]: cell [i] holds unit [i] when there is
    one, and is empty otherwise. *)
Definition boardCells (us : list Unit) (boardSize : nat) : list (option Unit) :=
  map (fun i => if i <? length us then nth_error us i else None) (seq 0 boardSize).

(** A [Map] from unit id to region, insertion-ordered. *)
Fixpoint emblem_set (m : list (string * string)) (k v : string) : list (string * string) :=
  match m with
  | [] => [(k, v)]
  | (k', v') :: r =>
      if String.eqb k k' then (k', v) :: r else (k', v') :: emblem_set r k v
  end.

Fixpoint emblem_get (m : list (string * string)) (k : string) : option string :=
  match m with
  | [] => None
  | (k', v) :: r => if String.eqb k k' then Some v else emblem_get r k
  end.

(** [emblemMap] of [TeamBoard] and of the results table. *)
Definition emblemMap (assignments : list EmblemAssignment) : list (string * string) :=
  fold_left (fun m a => emblem_set m (unitId a) (region a)) assignments [].

(* ================================================================= *)
(** ** Further concrete inputs *)

(** A catalog of three regions only. *)
Definition threeRegions : list Region :=
  [region_of "a" 1; region_of "b" 1; region_of "c" 1]%string.


(** A result of two units that are always available. *)
Definition openResult : SolverResult :=
  mkResult (mkComposition [unit_of "m" 1 ["a"]; unit_of "n" 1 ["a"]]%string [] []) 2 4 None.

(** A team of the crowded catalog, built on a Piltover pair. *)
Definition piltoverTeam : list Unit :=
  [unit_of "t1" 2 ["targon"]; unit_of "p1" 3 ["piltover"]; unit_of "p2" 3 ["piltover"];
   unit_of "f01" 1 ["ionia"]; unit_of "f02" 1 ["ionia"]]%string.

(* ================================================================= *)
(** * Properties *)

(* ================================================================= *)
(** ** The combination generator *)

Section GeneratorFacts.
Context {T : Type}.

Lemma backtrack_eq size m (rest current : list T) count :
  backtrack size m rest current count =
  if (count >=? m)%Z then ([], count)
  else if length current =? size then ([current], (count + 1)%Z)
  else if length rest <? size - length current then ([], count)
  else bt_loop size m current rest count.
Proof. destruct rest; reflexivity. Qed.

Lemma combs_short (l : list T) k : length l < k -> combs l k = [].
Proof.
  revert k; induction l as [|x tl IH]; intros [|k] H; simpl in *; try lia; auto.
  rewrite (IH k), (IH (S k)) by lia. reflexivity.
Qed.

Lemma combs_all (l : list T) : combs l (length l) = [l].
Proof.
  induction l as [|x tl IH]; simpl; auto.
  rewrite IH, combs_short by lia. reflexivity.
Qed.

Lemma emitted_done m count (all : list (list T)) :
  (m <= count)%Z -> emitted m count all = ([], count).
Proof.
  intros H. unfold emitted. replace (Z.to_nat (m - count)) with 0 by lia.
  simpl. f_equal. lia.
Qed.

Lemma emitted_nil m count : emitted m count (@nil (list T)) = ([], count).
Proof. unfold emitted. rewrite firstn_nil. simpl. f_equal. lia. Qed.

Lemma emitted_one m count (c : list T) :
  (count < m)%Z -> emitted m count [c] = ([c], (count + 1)%Z).
Proof.
  intros H. unfold emitted.
  destruct (Z.to_nat (m - count)) eqn:E; [lia|].
  simpl. rewrite firstn_nil. reflexivity.
Qed.

Lemma emitted_app m count (A B : list (list T)) :
  (count < m)%Z ->
  (let '(out1, c1) := emitted m count A in
   let '(out2, c2) := emitted m c1 B in (out1 ++ out2, c2))
  = emitted m count (A ++ B).
Proof.
  intros H. unfold emitted.
  set (N := Z.to_nat (m - count)).
  rewrite firstn_app.
  assert (EN : Z.to_nat (m - (count + Z.of_nat (length (firstn N A)))) = N - length A).
  { rewrite length_firstn. subst N. lia. }
  rewrite EN. f_equal. rewrite !length_app. lia.
Qed.

(** The checks at the head of [backtrack], which do not depend on the loop. *)
Lemma backtrack_head size m (rest current : list T) count :
  length current <= size ->
  (length current < size ->
   bt_loop size m current rest count =
   emitted m count (map (app current) (combs rest (size - length current)))) ->
  backtrack size m rest current count =
  emitted m count (map (app current) (combs rest (size - length current))).
Proof.
  intros H L. rewrite backtrack_eq.
  destruct (count >=? m)%Z eqn:E1.
  - rewrite emitted_done by lia. reflexivity.
  - destruct (length current =? size) eqn:E2.
    + apply Nat.eqb_eq in E2. rewrite E2, Nat.sub_diag.
      replace (combs rest 0) with [@nil T] by (destruct rest; reflexivity).
      simpl. rewrite app_nil_r, emitted_one by lia. reflexivity.
    + apply Nat.eqb_neq in E2.
      destruct (length rest <? size - length current) eqn:E3.
      * rewrite combs_short by (apply Nat.ltb_lt in E3; exact E3).
        simpl. rewrite emitted_nil. reflexivity.
      * apply L. lia.
Qed.

Lemma backtrack_combs size m (rest : list T) :
  (forall current count, length current <= size ->
     backtrack size m rest current count =
     emitted m count (map (app current) (combs rest (size - length current))))
  /\
  (forall current count, length current < size ->
     bt_loop size m current rest count =
     emitted m count (map (app current) (combs rest (size - length current)))).
Proof.
  induction rest as [|x tl [IHb IHl]].
  - assert (L : forall (current : list T) count, length current < size ->
       bt_loop size m current [] count =
       emitted m count (map (app current) (combs [] (size - length current)))).
    { intros current count H. destruct (size - length current) eqn:E; [lia|].
      simpl. rewrite emitted_nil. reflexivity. }
    split; auto. intros. apply backtrack_head; auto.
  - assert (L : forall current count, length current < size ->
       bt_loop size m current (x :: tl) count =
       emitted m count (map (app current) (combs (x :: tl) (size - length current)))).
    { intros current count H.
      destruct (size - length current) as [|j] eqn:E; [lia|].
      cbn [combs]. unfold bt_loop; fold (bt_loop size m current).
      destruct (count <? m)%Z eqn:E1.
      - rewrite IHb by (rewrite length_app; simpl; lia).
        rewrite length_app. simpl length.
        replace (size - (length current + 1)) with j by lia.
        rewrite map_app, map_map.
        rewrite <- emitted_app by lia.
        rewrite map_ext with (f := fun c => current ++ x :: c)
                             (g := app (current ++ [x]))
          by (intros c; rewrite <- app_assoc; reflexivity).
        destruct (emitted m count (map (app (current ++ [x])) (combs tl j))) as [o1 c1].
        rewrite IHl by lia. rewrite E. reflexivity.
      - rewrite emitted_done by lia. reflexivity. }
    split; auto. intros. apply backtrack_head; auto.
Qed.

Lemma generateCombinations_combs (items : list T) k m :
  generateCombinations items k m =
  if (k =? 0) || (length items <=? k) then combs items k
  else firstn (Z.to_nat m) (combs items k).
Proof.
  unfold generateCombinations.
  destruct (k =? 0) eqn:E0.
  - apply Nat.eqb_eq in E0. subst. destruct items; reflexivity.
  - simpl. destruct (length items <? k) eqn:E1.
    + apply Nat.ltb_lt in E1. rewrite combs_short by lia.
      destruct (length items <=? k); [reflexivity | symmetry; apply firstn_nil].
    + apply Nat.ltb_ge in E1. destruct (k =? length items) eqn:E2.
      * apply Nat.eqb_eq in E2. subst k. rewrite Nat.leb_refl, combs_all. reflexivity.
      * apply Nat.eqb_neq in E2.
        replace (length items <=? k) with false by (symmetry; apply Nat.leb_gt; lia).
        rewrite (proj1 (backtrack_combs k m items)) by (simpl; lia).
        simpl. rewrite Nat.sub_0_r, Z.sub_0_r.
        rewrite map_id. reflexivity.
Qed.
End GeneratorFacts.

Lemma lex_lt_irrefl l : ~ lex_lt l l.
Proof.
  induction l as [|x l IH]; intros H; inversion H; subst; try lia; auto.
Qed.

Lemma StronglySorted_app {A} (R : A -> A -> Prop) (l1 l2 : list A) :
  StronglySorted R l1 -> StronglySorted R l2 ->
  (forall a b, In a l1 -> In b l2 -> R a b) ->
  StronglySorted R (l1 ++ l2).
Proof.
  induction l1 as [|a l1 IH]; intros S1 S2 H; simpl; auto.
  inversion S1; subst. constructor.
  - apply IH; auto. intros; apply H; simpl; auto.
  - apply Forall_app. split; auto.
    apply Forall_forall. intros b Hb. apply H; simpl; auto.
Qed.

Lemma StronglySorted_firstn {A} (R : A -> A -> Prop) n (l : list A) :
  StronglySorted R l -> StronglySorted R (firstn n l).
Proof.
  revert n; induction l as [|a l IH]; intros [|n] S; simpl; try constructor.
  - inversion S; auto.
  - inversion S; subst. apply Forall_forall. intros b Hb.
    rewrite Forall_forall in H2. apply H2.
    rewrite <- (firstn_skipn n l). apply in_or_app; auto.
Qed.

Lemma Forall_firstn' {A} (P : A -> Prop) n (l : list A) :
  Forall P l -> Forall P (firstn n l).
Proof.
  intros H. rewrite <- (firstn_skipn n l) in H. apply Forall_app in H. tauto.
Qed.

Lemma StronglySorted_NoDup {A} (R : A -> A -> Prop) (l : list A) :
  (forall a, ~ R a a) -> StronglySorted R l -> NoDup l.
Proof.
  intros irr. induction 1 as [|a l S IH F]; constructor; auto.
  intros Hin. rewrite Forall_forall in F. exact (irr a (F a Hin)).
Qed.

Lemma combs_elements (l : list nat) :
  StronglySorted lt l ->
  forall k c, In c (combs l k) ->
    length c = k /\ StronglySorted lt c /\ Forall (fun i => In i l) c.
Proof.
  induction 1 as [|x tl S IH F]; intros [|k] c Hc; simpl in Hc.
  - destruct Hc as [<-|[]]. repeat split; constructor.
  - destruct Hc.
  - destruct Hc as [<-|[]]. repeat split; constructor.
  - apply in_app_or in Hc. destruct Hc as [Hc|Hc].
    + apply in_map_iff in Hc. destruct Hc as [c' [<- Hc']].
      destruct (IH _ _ Hc') as [L [So In']]. rewrite Forall_forall in F, In'.
      repeat split.
      * simpl; lia.
      * constructor; auto. apply Forall_forall. intros i Hi. apply F, In', Hi.
      * constructor; [left; reflexivity|].
        apply Forall_forall. intros i Hi. right. apply In', Hi.
    + destruct (IH _ _ Hc) as [L [So In']]. repeat split; auto.
      eapply Forall_impl; [|exact In']. simpl. auto.
Qed.

Lemma combs_lex_sorted (l : list nat) :
  StronglySorted lt l -> forall k, StronglySorted lex_lt (combs l k).
Proof.
  induction 1 as [|x tl S IH F]; intros [|k]; simpl.
  - repeat constructor.
  - constructor.
  - repeat constructor.
  - apply StronglySorted_app.
    + specialize (IH k). induction IH as [|c cs _ IHc Fc]; simpl; constructor; auto.
      apply Forall_forall. intros d Hd. apply in_map_iff in Hd.
      destruct Hd as [d' [<- Hd']]. apply lex_tail.
      rewrite Forall_forall in Fc. auto.
    + apply IH.
    + intros a b Ha Hb. apply in_map_iff in Ha. destruct Ha as [a' [<- _]].
      destruct (combs_elements S _ _ Hb) as [L [_ In']].
      destruct b as [|y b']; [discriminate L|].
      apply lex_head. inversion In'; subst.
      rewrite Forall_forall in F. auto.
Qed.

Lemma combs_map {A B} (f : A -> B) (l : list A) k :
  combs (map f l) k = map (map f) (combs l k).
Proof.
  revert k; induction l as [|x tl IH]; intros [|k]; simpl; auto.
  rewrite map_app, !map_map, !IH, map_map. reflexivity.
Qed.

Lemma seq_sorted s n : StronglySorted lt (seq s n).
Proof.
  revert s; induction n as [|n IH]; intros s; simpl; constructor; auto.
  apply Forall_forall. intros i Hi. apply in_seq in Hi. lia.
Qed.

Lemma map_nth_error_seq {A} (l : list A) :
  map Some l = map (nth_error l) (seq 0 (length l)).
Proof.
  induction l as [|x tl IH]; simpl; auto.
  f_equal. rewrite <- seq_shift, map_map. exact IH.
Qed.

(** C6 (amended). For every item list of length [n], target size [k] and
    budget [maxResults], [generateCombinations] emits the items found at the
    index tuples [idx] it emits for the positions [0 .. n-1]; every such
    tuple has [k] strictly increasing positions below [n] (a [k]-element
    sublist in input order), the tuples come in strictly increasing
    lexicographic order, so none is emitted twice; when [0 < k < n] at most
    [maxResults] subsets are emitted; when [k = 0] exactly the empty subset,
    when [k > n] nothing and when [k = n] exactly the whole list are emitted,
    whatever the budget. *)
Theorem generateCombinations_spec {T} (items : list T) (k : nat) (maxResults : Z) :
  let n := length items in
  let out := generateCombinations items k maxResults in
  let idx := generateCombinations (seq 0 n) k maxResults in
  map (map Some) out = map (map (nth_error items)) idx
  /\ Forall (fun ix => length ix = k /\ StronglySorted lt ix
                       /\ Forall (fun i => i < n) ix) idx
  /\ StronglySorted lex_lt idx
  /\ NoDup idx
  /\ (0 < k < n -> (Z.of_nat (length out) <= Z.max 0 maxResults)%Z)
  /\ (k = 0 -> out = [[]])
  /\ (n < k -> out = [])
  /\ (k = n -> out = [items]).
Proof.
  intros n out idx.
  assert (Hout : out = if (k =? 0) || (n <=? k) then combs items k
                       else firstn (Z.to_nat maxResults) (combs items k))
    by apply generateCombinations_combs.
  assert (Hidx : idx = if (k =? 0) || (n <=? k) then combs (seq 0 n) k
                       else firstn (Z.to_nat maxResults) (combs (seq 0 n) k)).
  { unfold idx. rewrite generateCombinations_combs, length_seq. reflexivity. }
  assert (Hel : Forall (fun ix => length ix = k /\ StronglySorted lt ix
                                  /\ Forall (fun i => i < n) ix) (combs (seq 0 n) k)).
  { apply Forall_forall. intros c Hc.
    destruct (combs_elements (seq_sorted 0 n) _ _ Hc) as [L [So In']].
    repeat split; auto. eapply Forall_impl; [|exact In'].
    simpl. intros i Hi. apply in_seq in Hi. lia. }
  assert (Hso : StronglySorted lex_lt idx).
  { rewrite Hidx. destruct ((k =? 0) || (n <=? k)).
    - apply combs_lex_sorted, seq_sorted.
    - apply StronglySorted_firstn, combs_lex_sorted, seq_sorted. }
  split; [|split; [|split; [|split; [|split; [|split; [|split]]]]]].
  - rewrite Hout, Hidx. destruct ((k =? 0) || (n <=? k)).
    + rewrite <- combs_map, <- combs_map. unfold n. rewrite <- map_nth_error_seq.
      reflexivity.
    + rewrite <- !firstn_map, <- !combs_map. unfold n.
      rewrite <- map_nth_error_seq. reflexivity.
  - rewrite Hidx. destruct ((k =? 0) || (n <=? k)); auto using Forall_firstn'.
  - exact Hso.
  - eapply StronglySorted_NoDup; [exact lex_lt_irrefl | exact Hso].
  - intros [H1 H2]. rewrite Hout.
    replace ((k =? 0) || (n <=? k)) with false.
    + rewrite length_firstn. lia.
    + symmetry. apply orb_false_iff. split.
      * apply Nat.eqb_neq; lia.
      * apply Nat.leb_gt; lia.
  - intros ->. reflexivity.
  - intros H. rewrite Hout. rewrite combs_short by exact H.
    destruct ((k =? 0) || (n <=? k)); auto using firstn_nil.
  - intros ->. rewrite Hout. rewrite Nat.leb_refl, orb_true_r. apply combs_all.
Qed.

(** C6, as stated, fails: with a budget of zero the two short cuts still emit
    one subset each. *)
Lemma generateCombinations_budget_zero :
  ~ (Z.of_nat (length (generateCombinations [1; 2; 3] 0 0%Z)) <= 0)%Z
  /\ ~ (Z.of_nat (length (generateCombinations [1; 2; 3] 3 0%Z)) <= 0)%Z.
Proof. split; vm_compute; intros H; apply H; reflexivity. Qed.

(* ================================================================= *)
(** ** Facts about the array helpers *)

Lemma includes_In (l : list string) (s : string) : includes l s = true <-> In s l.
Proof.
  unfold includes. rewrite existsb_exists. split.
  - intros [x [Hx E]]. apply String.eqb_eq in E. subst. exact Hx.
  - intros H. exists s. split; auto. apply String.eqb_refl.
Qed.

(** An invariant of the loop body is an invariant of the loop, whether or
    not it breaks. *)
Lemma for_of_inv {A S} (P : S -> Prop) (body : A -> S -> S * bool) xs st :
  P st -> (forall x s, P s -> P (fst (body x s))) -> P (for_of xs body st).
Proof.
  intros H0 Hb. revert st H0. induction xs as [|x r IH]; intros st H0; simpl; auto.
  specialize (Hb x st H0). destruct (body x st) as [st' brk]. simpl in Hb.
  destruct brk; auto.
Qed.

Lemma insert_by_In {A} (cmp : A -> A -> Z) x y (l : list A) :
  In y (insert_by cmp x l) <-> y = x \/ In y l.
Proof.
  induction l as [|z l IH]; simpl.
  - intuition congruence.
  - destruct (cmp x z <=? 0)%Z; simpl; [intuition congruence|].
    rewrite IH. intuition congruence.
Qed.

Lemma sort_by_In {A} (cmp : A -> A -> Z) y (l : list A) :
  In y (sort_by cmp l) <-> In y l.
Proof.
  induction l as [|x l IH]; simpl; [tauto|].
  rewrite insert_by_In, IH. intuition congruence.
Qed.

(* ================================================================= *)
(** ** Invariants of the search *)

Section SearchInvariant.
Variable unitsData : list Unit.
Variable regionsData : list Region.
Variables emblem1 emblem2 : string.
Variable config : SolverConfig.

(** A property of the result list that every accepted composition keeps is
    kept by each phase and by the whole loop. *)
Variable P : list SolverResult -> Prop.
Hypothesis P_store :
  forall team c st,
    valid (isValidComposition regionsData team emblem1 emblem2) = true ->
    P (results st) ->
    P (results (store team (isValidComposition regionsData team emblem1 emblem2) c st)).

Lemma validateSmart_inv team st :
  P (results st) -> P (results (validateSmart regionsData emblem1 emblem2 team st)).
Proof.
  intros H. unfold validateSmart.
  destruct (valid (isValidComposition regionsData team emblem1 emblem2)) eqn:V;
    [apply P_store; [exact V | exact H] | exact H].
Qed.

Lemma fillerLoop_inv prechecked dedup size maxForSize e1 e2 t pairs st :
  P (results st) ->
  P (results (fillerLoop unitsData regionsData emblem1 emblem2 config prechecked dedup
                         size maxForSize e1 e2 t pairs st)).
Proof.
  intros H. unfold fillerLoop.
  apply (for_of_inv (fun s => P (results s))); auto.
  intros pair s Hs.
  destruct (checkedCount s >=? maxForSize)%Z; simpl; auto.
  destruct (length _ =? size).
  - destruct (prechecked && _); simpl; auto.
    apply validateSmart_inv. exact Hs.
  - destruct (length _ <? size); simpl; auto.
    apply (for_of_inv (fun s => P (results s))); auto.
    intros fill s' Hs'.
    destruct (checkedCount s' >=? maxForSize)%Z; simpl; auto.
    destruct (prechecked && _); simpl; auto.
    apply validateSmart_inv. exact Hs'.
Qed.

Lemma smartPhase_inv size maxForSize st :
  P (results st) ->
  P (results (smartPhase unitsData regionsData emblem1 emblem2 config size maxForSize st)).
Proof.
  intros H. unfold smartPhase. cbv zeta.
  match goal with |- context [if ?b then _ else _] => destruct b end; auto.
  apply (for_of_inv (fun s => P (results s))); auto. intros g1 s1 H1. simpl.
  apply (for_of_inv (fun s => P (results s))); auto. intros g2 s2 H2. simpl.
  apply (for_of_inv (fun s => P (results s))); auto. intros t s3 H3. simpl.
  repeat apply fillerLoop_inv. exact H3.
Qed.

Lemma bruteForcePhase_inv size maxForSize st :
  P (results st) ->
  P (results (bruteForcePhase unitsData regionsData emblem1 emblem2 config size maxForSize st)).
Proof.
  intros H. unfold bruteForcePhase.
  apply (for_of_inv (fun s => P (results s))); auto.
  intros team s Hs.
  destruct (results_full (bump_checked s)); simpl; auto.
  destruct (checkedCount s + 1 >? maxForSize)%Z; simpl; auto.
  destruct (valid (isValidComposition regionsData team emblem1 emblem2)) eqn:V; simpl;
    [apply P_store; [exact V | exact Hs] | exact Hs].
Qed.

Lemma sizeIteration_inv size st :
  P (results st) ->
  P (results (sizeIteration unitsData regionsData emblem1 emblem2 config size st)).
Proof.
  intros H. unfold sizeIteration. cbv zeta.
  match goal with |- context [if ?b then _ else _] => destruct b end.
  - apply bruteForcePhase_inv, smartPhase_inv. exact H.
  - apply smartPhase_inv. exact H.
Qed.

Lemma searchLoop_inv st :
  P (results st) ->
  P (results (searchLoop unitsData regionsData emblem1 emblem2 config st)).
Proof.
  intros H. unfold searchLoop.
  apply (for_of_inv (fun s => P (results s))); auto.
  intros size s Hs. destruct (results_full s); simpl; auto.
  apply sizeIteration_inv. exact Hs.
Qed.
End SearchInvariant.

Section SolverFacts.
Variable unitsData : list Unit.
Variable regionsData : list Region.
Variables emblem1 emblem2 : string.
Variable config : SolverConfig.

Lemma isValidComposition_valid (team : list Unit) :
  valid (isValidComposition regionsData team emblem1 emblem2) = true ->
  forall n k c,
    wellPlaced emblem1 emblem2
      (mkResult (mkComposition team
                   (v_emblemAssignments (isValidComposition regionsData team emblem1 emblem2))
                   (v_activeRegions (isValidComposition regionsData team emblem1 emblem2)))
                n k c).
Proof.
  unfold isValidComposition.
  destruct (find (fun u => negb (includes (regions u) emblem1)) team) as [u1|] eqn:F1;
    [|discriminate].
  destruct (find (fun u => negb (includes (regions u) emblem2)) team) as [u2|] eqn:F2;
    [|discriminate].
  cbv zeta.
  match goal with |- context [length ?a <? 4] => destruct (length a <? 4) eqn:E end;
    [discriminate|].
  intros _ n k c. apply Nat.ltb_ge in E.
  apply find_some in F1, F2. destruct F1 as [I1 N1], F2 as [I2 N2].
  split; [exact E|]. exists u1, u2. simpl.
  repeat split; auto.
  - intros H. apply includes_In in H. rewrite H in N1. discriminate.
  - intros H. apply includes_In in H. rewrite H in N2. discriminate.
Qed.

Lemma store_wellPlaced team c st :
  valid (isValidComposition regionsData team emblem1 emblem2) = true ->
  Forall (wellPlaced emblem1 emblem2) (results st) ->
  Forall (wellPlaced emblem1 emblem2)
         (results (store team (isValidComposition regionsData team emblem1 emblem2) c st)).
Proof.
  intros V H. unfold store.
  destruct (includes (seenCompositions st) (compositionKey team)); auto.
  simpl. apply Forall_app. split; auto.
  constructor; [|constructor]. apply isValidComposition_valid, V.
Qed.

Lemma store_grows n team (v : Validation) c st :
  n <= length (results st) -> n <= length (results (store team v c st)).
Proof.
  intros H. unfold store.
  destruct (includes (seenCompositions st) (compositionKey team)); auto.
  simpl. rewrite length_app. lia.
Qed.

(** C1. Every result returned by [solveWorldRunes] has at least four active
    regions, and its two emblem assignments target units of the composition
    whose own regions do not contain the assigned emblem's region. *)
Theorem solveWorldRunes_valid (r : SolverResult) :
  In r (solveWorldRunes unitsData regionsData emblem1 emblem2 config) ->
  4 <= length (activeRegions (composition r))
  /\ exists u1 u2,
       emblemAssignments (composition r)
       = [mkAssignment (id u1) emblem1; mkAssignment (id u2) emblem2]
       /\ In u1 (units (composition r)) /\ ~ In emblem1 (regions u1)
       /\ In u2 (units (composition r)) /\ ~ In emblem2 (regions u2).
Proof.
  unfold solveWorldRunes.
  destruct (_ || _); [intros []|].
  destruct (getRegionById regionsData emblem1); [|intros []].
  destruct (getRegionById regionsData emblem2); [|intros []].
  intros H. apply sort_by_In in H.
  assert (A : Forall (wellPlaced emblem1 emblem2)
                (results (searchLoop unitsData regionsData emblem1 emblem2 config initialState))).
  { apply searchLoop_inv; [|constructor].
    intros team c st V Hst. apply store_wellPlaced; auto. }
  rewrite Forall_forall in A. exact (A r H).
Qed.

Lemma getRegionById_None rid :
  ~ In rid (map region_id regionsData) -> getRegionById regionsData rid = None.
Proof.
  intros H. unfold getRegionById.
  destruct (find _ regionsData) as [r|] eqn:F; auto.
  apply find_some in F. destruct F as [I E]. apply String.eqb_eq in E.
  exfalso. apply H. rewrite <- E. apply in_map, I.
Qed.

(** C8. When either emblem id is not the id of a region of the catalog,
    [solveWorldRunes] returns the empty list. *)
Theorem solveWorldRunes_unknown_emblem :
  ~ In emblem1 (map region_id regionsData) \/ ~ In emblem2 (map region_id regionsData) ->
  solveWorldRunes unitsData regionsData emblem1 emblem2 config = [].
Proof.
  intros H. unfold solveWorldRunes.
  destruct (_ || _); auto.
  destruct H as [H|H]; rewrite (getRegionById_None _ H).
  - reflexivity.
  - destruct (getRegionById regionsData emblem1); reflexivity.
Qed.

Lemma smartPhase_grows size maxForSize st :
  length (results st)
  <= length (results (smartPhase unitsData regionsData emblem1 emblem2 config size maxForSize st)).
Proof.
  apply (smartPhase_inv unitsData regionsData emblem1 emblem2 config
           (fun rs => length (results st) <= length rs)); auto.
  intros team c s _. apply store_grows.
Qed.

Lemma bruteForcePhase_grows size maxForSize st :
  length (results st)
  <= length (results (bruteForcePhase unitsData regionsData emblem1 emblem2 config size maxForSize st)).
Proof.
  apply (bruteForcePhase_inv unitsData regionsData emblem1 emblem2 config
           (fun rs => length (results st) <= length rs)); auto.
  intros team c s _. apply store_grows.
Qed.

Lemma tracedLoop_searchLoop ss st smart brute :
  fst (tracedLoop unitsData regionsData emblem1 emblem2 config ss st smart brute)
  = for_of ss
      (fun size st =>
         if results_full st then (st, true)
         else (sizeIteration unitsData regionsData emblem1 emblem2 config size st, false))
      st.
Proof.
  revert st smart brute. induction ss as [|size rest IH]; intros st smart brute; simpl; auto.
  destruct (results_full st); auto.
  match goal with
  | |- context [tracedLoop _ _ _ _ _ rest ?s ?a ?b] =>
      specialize (IH s a b);
      destruct (tracedLoop unitsData regionsData emblem1 emblem2 config rest s a b)
        as [final tr]
  end.
  simpl in *. exact IH.
Qed.

Lemma tracedLoop_gate ss st smart brute :
  length (results st) = smart + brute ->
  Forall (fun g => g_attempted g = (g_smartSoFar g + g_bruteSoFar g <? 10))
         (snd (tracedLoop unitsData regionsData emblem1 emblem2 config ss st smart brute)).
Proof.
  revert st smart brute. induction ss as [|size rest IH]; intros st smart brute E; simpl.
  - constructor.
  - destruct (results_full st); [constructor|].
    set (mx := getMaxCombinationsForSize size
                 (length (filteredUnits unitsData config))).
    set (st1 := smartPhase unitsData regionsData emblem1 emblem2 config size mx
                  (reset_counters st)).
    set (st2 := if bruteForceGate st1
                then bruteForcePhase unitsData regionsData emblem1 emblem2 config size mx st1
                else st1).
    pose proof (smartPhase_grows size mx (reset_counters st)) as G1. fold st1 in G1.
    assert (G2 : length (results st1) <= length (results st2)).
    { unfold st2. destruct (bruteForceGate st1); [apply bruteForcePhase_grows | lia]. }
    simpl in G1.
    specialize (IH st2 (smart + (length (results st1) - length (results st)))
                   (brute + (length (results st2) - length (results st1)))).
    simpl.
    destruct (tracedLoop unitsData regionsData emblem1 emblem2 config rest st2 _ _)
      as [final tr].
    simpl in *. constructor.
    + simpl. unfold bruteForceGate. f_equal. lia.
    + apply IH. lia.
Qed.

(** C7 (amended). In every team-size iteration of a run, the brute-force
    phase is attempted if and only if the results accepted so far by both
    phases, over all sizes processed so far, are fewer than ten. The traced
    loop ends in the state the search loop ends in. *)
Theorem bruteForce_attempted_iff :
  let run := tracedLoop unitsData regionsData emblem1 emblem2 config
               (sizes unitsData config) initialState 0 0 in
  fst run = searchLoop unitsData regionsData emblem1 emblem2 config initialState
  /\ Forall (fun g => g_attempted g = true <-> g_smartSoFar g + g_bruteSoFar g < 10)
            (snd run).
Proof.
  split.
  - apply tracedLoop_searchLoop.
  - eapply Forall_impl; [|apply tracedLoop_gate; reflexivity].
    simpl. intros g ->. apply Nat.ltb_lt.
Qed.
End SolverFacts.

(* ================================================================= *)
(** ** The unlock filter *)

Lemma fold_min_le (r : list nat) (x : nat) :
  fold_left Nat.min r x <= x /\ Forall (fun y => fold_left Nat.min r x <= y) r.
Proof.
  revert x; induction r as [|y r IH]; intros x; simpl.
  - split; auto.
  - destruct (IH (Nat.min x y)) as [H1 H2]. split; [lia|].
    constructor; [lia | exact H2].
Qed.

Lemma fold_min_in (r : list nat) (x : nat) : In (fold_left Nat.min r x) (x :: r).
Proof.
  revert x; induction r as [|y r IH]; intros x; simpl; auto.
  destruct (IH (Nat.min x y)) as [H|H].
  - destruct (Nat.min_spec x y) as [[_ E]|[_ E]]; [left | right; left]; congruence.
  - right; right; exact H.
Qed.

Lemma min_or_0_le (xs : list nat) (y : nat) : In y xs -> min_or_0 xs <= y.
Proof.
  destruct xs as [|x r]; simpl; [tauto|].
  destruct (fold_min_le r x) as [H1 H2]. rewrite Forall_forall in H2.
  intros [<-|H]; auto.
Qed.

Lemma min_or_0_in (xs : list nat) : xs <> [] -> In (min_or_0 xs) xs.
Proof. destruct xs as [|x r]; [congruence|]. intros _. apply fold_min_in. Qed.

(** Every entry of [dedupMap] comes from the input, and there are no more
    entries than inputs. *)
Lemma dedupMap_from (rs : list SolverResult) (m0 : list (string * SolverResult)) :
  let m := fold_left
             (fun m r => if dedup_has m (unitSignature r) then m
                         else m ++ [(unitSignature r, r)]) rs m0 in
  (forall e, In e m -> In e m0 \/ In (snd e) rs)
  /\ length m <= length m0 + length rs.
Proof.
  revert m0; induction rs as [|r rs IH]; intros m0; simpl.
  - split; auto. lia.
  - destruct (dedup_has m0 (unitSignature r)).
    + destruct (IH m0) as [H1 H2]. split; [|lia].
      intros e He. destruct (H1 e He); auto.
    + destruct (IH (m0 ++ [(unitSignature r, r)])) as [H1 H2]. split.
      * intros e He. destruct (H1 e He) as [H|H]; auto.
        apply in_app_or in H. destruct H as [H|[<-|[]]]; auto.
      * rewrite length_app in H2. simpl in H2. lia.
Qed.

Lemma filtered_from (rs : list SolverResult) (unlockedIds : list string) :
  incl (filtered (applyUnlockFilter rs unlockedIds)) rs
  /\ length (filtered (applyUnlockFilter rs unlockedIds)) <= length rs.
Proof.
  unfold applyUnlockFilter; simpl.
  set (f0 := filter _ rs).
  destruct (dedupMap_from f0 []) as [H1 H2]. fold (dedupMap f0) in H1, H2.
  split.
  - intros r Hr. apply in_map_iff in Hr. destruct Hr as [e [<- He]].
    destruct (H1 e He) as [[]|H]. apply filter_In in H. tauto.
  - rewrite length_map. simpl in H2.
    pose proof (filter_length_le (fun r => negb (existsb (isLocked unlockedIds)
                                     (units (composition r)))) rs).
    fold f0 in H. lia.
Qed.

(** C9. The list kept by the unlock filter is no longer than its input, and
    when it is not empty its minimum [unitCount] is at least the minimum
    [unitCount] of the input. *)
Theorem applyUnlockFilter_monotone (rs : list SolverResult) (unlockedIds : list string) :
  let v := applyUnlockFilter rs unlockedIds in
  length (filtered v) <= length rs
  /\ (filtered v <> [] ->
      minimalFiltered v = min_or_0 (map unitCount (filtered v))
      /\ minimalAll v = min_or_0 (map unitCount rs)
      /\ minimalAll v <= minimalFiltered v).
Proof.
  intros v. destruct (filtered_from rs unlockedIds) as [Hin Hlen].
  split; [exact Hlen|]. intros Hne.
  split; [reflexivity|]. split; [reflexivity|].
  change (min_or_0 (map unitCount rs) <= min_or_0 (map unitCount (filtered v))).
  apply min_or_0_le.
  assert (In (min_or_0 (map unitCount (filtered v))) (map unitCount (filtered v))).
  { apply min_or_0_in. destruct (filtered v); [congruence | discriminate]. }
  apply in_map_iff in H. destruct H as [r [E Hr]]. rewrite <- E.
  apply in_map, Hin, Hr.
Qed.

(** C10. When the unlock filter keeps nothing of a non-empty input, the
    minimum of the kept list reads as zero, the higher-minimum trigger is
    off and no unlock suggestion is produced. *)
Theorem no_suggestions_when_all_filtered (rs : list SolverResult) (unlockedIds : list string) :
  rs <> [] ->
  filtered (applyUnlockFilter rs unlockedIds) = [] ->
  minimalFiltered (applyUnlockFilter rs unlockedIds) = 0
  /\ filteredHasHigherMin (applyUnlockFilter rs unlockedIds) = false
  /\ unlockSuggestions (applyUnlockFilter rs unlockedIds) = [].
Proof.
  intros Hne Hf. unfold applyUnlockFilter in *. simpl in *.
  rewrite Hf. simpl. split; [reflexivity|].
  replace (min_or_0 (map unitCount rs) <? 0) with false
    by (symmetry; apply Nat.ltb_ge; lia).
  simpl. auto.
Qed.

(* ================================================================= *)
(** ** The code at concrete catalogs *)

(** C1 at a concrete catalog: the composition that the brute-force phase
    returns there. *)
Lemma solveWorldRunes_valid_witness :
  4 <= length (activeRegions (composition voidWholePool))
  /\ exists u1 u2,
       emblemAssignments (composition voidWholePool)
       = [mkAssignment (id u1) "demacia"; mkAssignment (id u2) "noxus"]
       /\ In u1 (units (composition voidWholePool)) /\ ~ In "demacia"%string (regions u1)
       /\ In u2 (units (composition voidWholePool)) /\ ~ In "noxus"%string (regions u2).
Proof.
  apply (solveWorldRunes_valid voidUnitsData voidRegions "demacia" "noxus" config5).
  vm_compute. right; right; left; reflexivity.
Defined.

(** C8 at a concrete catalog: an emblem that names no region of it. *)
Lemma solveWorldRunes_unknown_emblem_witness :
  solveWorldRunes voidUnitsData voidRegions "bilgewater" "noxus" config5 = [].
Proof.
  apply solveWorldRunes_unknown_emblem. left. vm_compute.
  intros [H|[H|[H|[H|[H|[]]]]]]; discriminate H.
Defined.

(** C10 at a concrete input: the only result needs a locked unit. *)
Lemma no_suggestions_when_all_filtered_witness :
  minimalFiltered (applyUnlockFilter [lockedResult] []) = 0
  /\ filteredHasHigherMin (applyUnlockFilter [lockedResult] []) = false
  /\ unlockSuggestions (applyUnlockFilter [lockedResult] []) = [].
Proof.
  apply no_suggestions_when_all_filtered; [discriminate | reflexivity].
Defined.

(** C2 at a failing input. The catalog's ids are pairwise distinct, and the
    first two returned compositions, built by the Void loop, hold unit [x]
    twice. *)
Theorem void_loop_repeats_unit :
  NoDup (map id voidUnitsData)
  /\ map (fun r => map id (units (composition r)))
         (solveWorldRunes voidUnitsData voidRegions "demacia" "noxus" config5)
     = [["x"; "x"; "v1"; "v2"; "f"]; ["x"; "x"; "v1"; "v2"; "g"];
        ["x"; "v1"; "v2"; "f"; "g"]]%string.
Proof.
  split; [|vm_compute; reflexivity].
  repeat constructor; simpl; intuition discriminate.
Qed.

(** C3 at a failing input. One smart phase of size five accepts 2244
    compositions, and all of them are returned. *)
Theorem smart_phase_exceeds_cap :
  Z.of_nat (length (solveWorldRunes crowdedUnitsData crowdedRegions "a" "b" config5))
  = 2244%Z
  /\ (MAX_TOTAL_RESULTS < 2244)%Z.
Proof. split; vm_compute; reflexivity. Qed.

(** C4 at a failing input. The smart phase calls the validator once, from
    the Shadow Isles loop, on a team that the quick pre-checks reject. With
    the pair moved to Piltover the same team is checked by the Piltover
    loop, which has the pre-checks, and the validator is never called. *)
Theorem shadow_isles_loop_skips_prefilter :
  validatorCalls
    (smartPhase shadowUnitsData shadowRegions "a" "b" config5 5 50000 initialState)
  = [shadowUnitsData]
  /\ prefilter shadowRegions "a" "b" shadowUnitsData = false
  /\ validatorCalls
       (smartPhase twinUnitsData twinRegions "a" "b" config5 5 50000 initialState)
     = []
  /\ checkedCount
       (smartPhase twinUnitsData twinRegions "a" "b" config5 5 50000 initialState)
     = 1%Z.
Proof. repeat split; vm_compute; reflexivity. Qed.

(** C5 at a failing input. Of the three returned results the two accepted in
    the smart phase have no [totalCost]; listed are the unit ids, the
    [totalCost] field and the sum of the unit costs. *)
Theorem smart_results_lack_totalCost :
  map (fun r => (map id (units (composition r)), totalCost r,
                 sumCost (units (composition r))))
      (solveWorldRunes voidUnitsData voidRegions "demacia" "noxus" config5)
  = [(["x"; "x"; "v1"; "v2"; "f"], None, 10%Z);
     (["x"; "x"; "v1"; "v2"; "g"], None, 13%Z);
     (["x"; "v1"; "v2"; "f"; "g"], Some 11%Z, 11%Z)]%string.
Proof. vm_compute. reflexivity. Qed.

(** C7, as stated, fails: at size five the smart phase has accepted nothing
    in the whole run, and the brute-force phase is not attempted, because
    the brute-force phase of size four has accepted fifteen results. *)
Lemma bruteForce_gate_counts_all_results :
  snd (tracedLoop plainUnitsData plainRegions "a" "b" config45
         (sizes plainUnitsData config45) initialState 0 0)
  = [mkGate 4 0 0 true; mkGate 5 0 15 false]
  /\ ~ Forall (fun g => g_attempted g = true <-> g_smartSoFar g < 10)
         (snd (tracedLoop plainUnitsData plainRegions "a" "b" config45
                 (sizes plainUnitsData config45) initialState 0 0)).
Proof.
  assert (E : snd (tracedLoop plainUnitsData plainRegions "a" "b" config45
                     (sizes plainUnitsData config45) initialState 0 0)
              = [mkGate 4 0 0 true; mkGate 5 0 15 false])
    by (vm_compute; reflexivity).
  split; [exact E|]. rewrite E. intros H.
  inversion H as [|g1 l1 _ H1]; subst. inversion H1 as [|g2 l2 H2 _]; subst.
  simpl in H2. destruct H2 as [_ H2]. discriminate H2. lia.
Qed.

(* ================================================================= *)
(** * Further properties *)

Lemma subseq_nil_l {A} (l : list A) : subseq [] l.
Proof. induction l; constructor; auto. Qed.

Lemma subseq_length {A} (c l : list A) : subseq c l -> length c <= length l.
Proof. induction 1; simpl; lia. Qed.

Lemma subseq_incl {A} (c l : list A) : subseq c l -> incl c l.
Proof.
  induction 1; intros y Hy; simpl in *; auto.
  destruct Hy; auto.
Qed.

Lemma subseq_map_NoDup {A B} (f : A -> B) (c l : list A) :
  subseq c l -> NoDup (map f l) -> NoDup (map f c).
Proof.
  induction 1; simpl; intros N; auto; inversion N; subst; auto.
  constructor; auto. intros Hin. apply H2.
  apply in_map_iff in Hin. destruct Hin as [y [E Hy]].
  apply in_map_iff. exists y. split; auto. eapply subseq_incl; eauto.
Qed.

Lemma combs_subseq {A} (l : list A) k c :
  In c (combs l k) <-> subseq c l /\ length c = k.
Proof.
  revert k c. induction l as [|x tl IH]; intros [|k] c; simpl.
  - split.
    + intros [<-|[]]. split; [constructor | reflexivity].
    + intros [_ L]. destruct c; [auto | discriminate].
  - split; [tauto|]. intros [Hs L]. inversion Hs; subst. discriminate.
  - split.
    + intros [<-|[]]. split; [apply subseq_nil_l | reflexivity].
    + intros [_ L]. destruct c; [auto | discriminate].
  - rewrite in_app_iff, in_map_iff. split.
    + intros [[c' [<- Hc']]|Hc].
      * apply IH in Hc'. destruct Hc' as [Hs L].
        split; [constructor; exact Hs | simpl; lia].
      * apply IH in Hc. destruct Hc as [Hs L].
        split; [constructor; exact Hs | exact L].
    + intros [Hs L]. inversion Hs; subst.
      * right. apply IH. split; [assumption | exact L].
      * left. exists c0. split; [reflexivity|]. apply IH.
        simpl in L. split; [assumption | lia].
Qed.

Lemma combs_length {A} (l : list A) k : length (combs l k) = binomial (length l) k.
Proof.
  revert k. induction l as [|x tl IH]; intros [|k]; simpl; auto.
  rewrite length_app, length_map, !IH. reflexivity.
Qed.

(** X1. For [0 < k < n] the generator emits [min(maxResults, C(n,k))] subsets
    (none when the budget is not positive); for [k = 0] or [k >= n] it emits
    [C(n,k)] subsets, that is one, one or none, whatever the budget. *)
Theorem generateCombinations_count {T} (items : list T) (k : nat) (maxResults : Z) :
  let n := length items in
  let out := generateCombinations items k maxResults in
  (0 < k < n -> length out = Nat.min (Z.to_nat maxResults) (binomial n k))
  /\ (k = 0 \/ n <= k -> length out = binomial n k).
Proof.
  intros n out. unfold out. rewrite generateCombinations_combs. fold n. split.
  - intros [H1 H2].
    replace ((k =? 0) || (n <=? k)) with false.
    + rewrite length_firstn, combs_length. reflexivity.
    + symmetry. apply orb_false_iff. split; [apply Nat.eqb_neq | apply Nat.leb_gt]; lia.
  - intros H. replace ((k =? 0) || (n <=? k)) with true.
    + apply combs_length.
    + symmetry. apply orb_true_iff.
      destruct H; [left; apply Nat.eqb_eq | right; apply Nat.leb_le]; auto.
Qed.

(** X2. When the budget is at least [C(n,k)], the emitted subsets are exactly
    the [k]-element subsequences of the items: none is missed. *)
Theorem generateCombinations_complete {T} (items : list T) (k : nat) (maxResults : Z) :
  (Z.of_nat (binomial (length items) k) <= maxResults)%Z ->
  forall c, In c (generateCombinations items k maxResults)
            <-> subseq c items /\ length c = k.
Proof.
  intros H c. rewrite generateCombinations_combs.
  destruct ((k =? 0) || (length items <=? k)).
  - apply combs_subseq.
  - rewrite firstn_all2; [apply combs_subseq|].
    rewrite combs_length. lia.
Qed.

(** Whatever the budget, what is emitted is a [k]-element subsequence. *)
Lemma generateCombinations_sound {T} (items : list T) (k : nat) (maxResults : Z) c :
  In c (generateCombinations items k maxResults) -> subseq c items /\ length c = k.
Proof.
  rewrite generateCombinations_combs.
  destruct ((k =? 0) || (length items <=? k)); intros H.
  - apply combs_subseq, H.
  - apply combs_subseq. rewrite <- (firstn_skipn (Z.to_nat maxResults)).
    apply in_or_app. left. exact H.
Qed.

(* ================================================================= *)
(** ** The insertion-ordered map *)

Lemma map_get_set (m : StrMap) k v r :
  map_get (map_set m k v) r = if String.eqb r k then Some v else map_get m r.
Proof.
  induction m as [|[k' v'] m IH]; simpl.
  - destruct (String.eqb r k); reflexivity.
  - destruct (String.eqb k k') eqn:E; simpl.
    + apply String.eqb_eq in E. subst k'.
      destruct (String.eqb r k); reflexivity.
    + destruct (String.eqb r k') eqn:E'.
      * apply String.eqb_eq in E'. subst k'.
        rewrite String.eqb_sym in E. rewrite E. reflexivity.
      * exact IH.
Qed.

Lemma get_or_0_set (m : StrMap) k v r :
  get_or_0 (map_set m k v) r = if String.eqb r k then v else get_or_0 m r.
Proof. unfold get_or_0. rewrite map_get_set. destruct (String.eqb r k); reflexivity. Qed.

Lemma map_keys_set (m : StrMap) k v :
  map_keys (map_set m k v) = set_add (map_keys m) k.
Proof.
  unfold set_add, includes, map_keys. induction m as [|[k' v'] m IH]; simpl; auto.
  destruct (String.eqb k k') eqn:E; simpl; auto.
  rewrite IH. destruct (existsb (String.eqb k) (map fst m)); reflexivity.
Qed.

Lemma set_add_In (s : list string) k x : In x (set_add s k) <-> In x s \/ x = k.
Proof.
  unfold set_add. destruct (includes s k) eqn:E.
  - apply includes_In in E. split; auto. intros [H| ->]; auto.
  - rewrite in_app_iff. simpl. intuition congruence.
Qed.

Lemma set_add_NoDup (s : list string) k : NoDup s -> NoDup (set_add s k).
Proof.
  intros N. unfold set_add. destruct (includes s k) eqn:E; auto.
  apply NoDup_app; auto.
  - repeat constructor. intros [].
  - intros x Hx [<-|[]]. apply includes_In in Hx. congruence.
Qed.

Lemma set_add_present (s : list string) k : In k s -> set_add s k = s.
Proof. intros H. unfold set_add. apply includes_In in H. rewrite H. reflexivity. Qed.

(* ================================================================= *)
(** ** Region counting *)

Lemma count_regions_from (rs : list string) (m : StrMap) :
  let m' := fold_left (fun m r => map_set m r (get_or_0 m r + 1)) rs m in
  (forall r, get_or_0 m' r = get_or_0 m r + count_occ string_dec rs r)
  /\ (forall r, In r (map_keys m') <-> In r (map_keys m) \/ In r rs)
  /\ (NoDup (map_keys m) -> NoDup (map_keys m')).
Proof.
  revert m. induction rs as [|x rs IH]; intros m; simpl.
  - repeat split; auto; try tauto; try (intros; lia).
  - destruct (IH (map_set m x (get_or_0 m x + 1))) as [G [K N]].
    repeat split.
    + intros r. rewrite G, get_or_0_set.
      destruct (string_dec x r) as [-> |Hne].
      * rewrite String.eqb_refl. lia.
      * replace (String.eqb r x) with false; [lia|].
        symmetry. apply String.eqb_neq. congruence.
    + intros H. apply K in H. rewrite map_keys_set, set_add_In in H.
      destruct H as [[H| ->]|H]; auto.
    + intros H. apply K. rewrite map_keys_set, set_add_In.
      destruct H as [H|[-> |H]]; auto.
    + intros H. apply N. rewrite map_keys_set. apply set_add_NoDup, H.
Qed.

Lemma countRegionUnits_from (team : list Unit) (m : StrMap) :
  let m' := fold_left
              (fun m u => fold_left (fun m r => map_set m r (get_or_0 m r + 1)) (regions u) m)
              team m in
  (forall r, get_or_0 m' r = get_or_0 m r + nativeCount team r)
  /\ (forall r, In r (map_keys m') <-> In r (map_keys m) \/ In r (flat_map regions team))
  /\ (NoDup (map_keys m) -> NoDup (map_keys m')).
Proof.
  unfold nativeCount. revert m. induction team as [|u team IH]; intros m; simpl.
  - repeat split; auto; try tauto; try (intros; lia).
  - destruct (count_regions_from (regions u) m) as [G1 [K1 N1]].
    destruct (IH (fold_left (fun m r => map_set m r (get_or_0 m r + 1)) (regions u) m))
      as [G [K N]].
    repeat split.
    + intros r. rewrite G, G1, count_occ_app. lia.
    + intros H. apply K in H. rewrite K1, in_app_iff in *. tauto.
    + intros H. apply K. rewrite K1, in_app_iff in *. tauto.
    + intros H. apply N, N1, H.
Qed.

Lemma countRegionUnits_facts (team : list Unit) (r : string) :
  get_or_0 (countRegionUnits team) r = nativeCount team r
  /\ (In r (map_keys (countRegionUnits team)) <-> exists u, In u team /\ In r (regions u))
  /\ NoDup (map_keys (countRegionUnits team)).
Proof.
  destruct (countRegionUnits_from team []) as [G [K N]].
  fold (countRegionUnits team) in G, K, N. repeat split.
  - rewrite G. reflexivity.
  - intros H. apply K in H. destruct H as [[]|H].
    apply in_flat_map in H. exact H.
  - intros H. apply K. right. apply in_flat_map. exact H.
  - apply N. constructor.
Qed.

(** X3. [countRegionUnits] maps a region to the number of times the team's
    units list it; its keys are the regions some unit lists, each once; and
    the counts do not depend on the order of the team. *)
Theorem countRegionUnits_counts (team : list Unit) (r : string) :
  get_or_0 (countRegionUnits team) r = nativeCount team r
  /\ (In r (map_keys (countRegionUnits team)) <-> exists u, In u team /\ In r (regions u))
  /\ NoDup (map_keys (countRegionUnits team))
  /\ (forall team', Permutation team team' ->
        get_or_0 (countRegionUnits team') r = get_or_0 (countRegionUnits team) r).
Proof.
  destruct (countRegionUnits_facts team r) as [G [K N]].
  split; [exact G|]. split; [exact K|]. split; [exact N|].
  intros team' P. rewrite G, (proj1 (countRegionUnits_facts team' r)).
  unfold nativeCount. symmetry.
  apply (proj1 (Permutation_count_occ string_dec _ _)).
  apply Permutation_flat_map, P.
Qed.

(* ================================================================= *)
(** ** The validator *)

Section ValidatorFacts.
Variable regionsData : list Region.
Variables emblem1 emblem2 : string.

Lemma active_of_filter (counts : StrMap) (toCheck : list string) :
  active_of regionsData counts toCheck = filter (activePred regionsData counts) toCheck.
Proof.
  unfold active_of.
  assert (G : forall acc,
             fold_left
               (fun act rid =>
                  match getRegionById regionsData rid with
                  | None => act
                  | Some r => if required_or_1 r <=? get_or_0 counts rid
                              then act ++ [rid] else act
                  end) toCheck acc
             = acc ++ filter (activePred regionsData counts) toCheck).
  { induction toCheck as [|x l IH]; intros acc; simpl.
    - rewrite app_nil_r. reflexivity.
    - rewrite IH. unfold activePred at 2.
      destruct (getRegionById regionsData x) as [r|]; auto.
      destruct (required_or_1 r <=? get_or_0 counts x); auto.
      rewrite <- app_assoc. reflexivity. }
  apply (G []).
Qed.

Lemma find_carrier (team : list Unit) (e : string) :
  (exists u, find (fun u => negb (includes (regions u) e)) team = Some u)
  <-> hasCarrier team e.
Proof.
  unfold hasCarrier. split.
  - intros [u F]. apply find_some in F. destruct F as [I N]. exists u. split; auto.
    intros H. apply includes_In in H. rewrite H in N. discriminate.
  - intros [u [I N]].
    destruct (find (fun u => negb (includes (regions u) e)) team) as [w|] eqn:F; eauto.
    exfalso. apply (find_none _ _ F) in I.
    apply negb_false_iff, includes_In in I. auto.
Qed.

Lemma find_split {A} (p : A -> bool) (l : list A) x :
  find p l = Some x ->
  exists pre post, l = pre ++ x :: post /\ p x = true /\ Forall (fun y => p y = false) pre.
Proof.
  induction l as [|y l IH]; simpl; [discriminate|].
  destruct (p y) eqn:E.
  - intros [= ->]. exists [], l. repeat split; auto.
  - intros F. destruct (IH F) as [pre [post [-> [Px Fa]]]].
    exists (y :: pre), post. repeat split; auto.
Qed.

(** The counts after both emblems have been applied, and the regions that
    are then checked. *)
Lemma boosted_counts (team : list Unit) :
  let c0 := countRegionUnits team in
  let c1 := map_set c0 emblem1 (get_or_0 c0 emblem1 + 1) in
  let c2 := map_set c1 emblem2 (get_or_0 c1 emblem2 + 1) in
  (forall r, get_or_0 c2 r = nativeCount team r + emblemBonus emblem1 emblem2 r)
  /\ set_add (set_add (map_keys c2) emblem1) emblem2 = map_keys c2
  /\ NoDup (map_keys c2)
  /\ (forall r, In r (map_keys c2)
                <-> (exists u, In u team /\ In r (regions u)) \/ r = emblem1 \/ r = emblem2).
Proof.
  intros c0 c1 c2.
  destruct (countRegionUnits_facts team emblem1) as [_ [_ N0]]. fold c0 in N0.
  assert (K2 : forall r, In r (map_keys c2)
                         <-> In r (map_keys c0) \/ r = emblem1 \/ r = emblem2).
  { intros r. unfold c2, c1. rewrite !map_keys_set, !set_add_In. tauto. }
  repeat split.
  - intros r. unfold c2, c1, emblemBonus. rewrite !get_or_0_set.
    pose proof (proj1 (countRegionUnits_facts team r)) as Gr. fold c0 in Gr.
    pose proof (proj1 (countRegionUnits_facts team emblem1)) as G1. fold c0 in G1.
    destruct (String.eqb r emblem2) eqn:E2.
    + apply String.eqb_eq in E2. subst r.
      destruct (String.eqb emblem2 emblem1) eqn:E1.
      * apply String.eqb_eq in E1. rewrite <- E1 in *. lia.
      * lia.
    + destruct (String.eqb r emblem1) eqn:E1.
      * apply String.eqb_eq in E1. subst r. lia.
      * lia.
  - assert (I1 : In emblem1 (map_keys c2)) by (apply K2; auto).
    assert (I2 : In emblem2 (map_keys c2)) by (apply K2; auto).
    rewrite (@set_add_present _ _ I1). exact (@set_add_present _ _ I2).
  - unfold c2, c1. rewrite !map_keys_set. auto using set_add_NoDup.
  - intros H. apply K2 in H. destruct H as [H|H]; auto.
    left. apply (countRegionUnits_facts team r), H.
  - intros H. apply K2. destruct H as [H|H]; auto.
    left. apply (countRegionUnits_facts team r), H.
Qed.

(** The active regions of a team that has both carriers. *)
Lemma active_regions_of (team : list Unit) u1 u2 :
  find (fun u => negb (includes (regions u) emblem1)) team = Some u1 ->
  find (fun u => negb (includes (regions u) emblem2)) team = Some u2 ->
  let act := v_activeRegions (isValidComposition regionsData team emblem1 emblem2) in
  NoDup act
  /\ (forall r, In r act <-> regionActive regionsData team emblem1 emblem2 r)
  /\ valid (isValidComposition regionsData team emblem1 emblem2) = (4 <=? length act).
Proof.
  intros F1 F2. unfold isValidComposition. rewrite F1, F2. cbv zeta.
  destruct (boosted_counts team) as [G [T [N K]]].
  rewrite T, active_of_filter.
  set (c2 := map_set _ emblem2 _) in *.
  assert (A : NoDup (filter (activePred regionsData c2) (map_keys c2))
              /\ forall r, In r (filter (activePred regionsData c2) (map_keys c2))
                           <-> regionActive regionsData team emblem1 emblem2 r).
  { split; [apply NoDup_filter, N|].
    intros r. rewrite filter_In. unfold activePred, regionActive. split.
    - intros [_ H]. destruct (getRegionById regionsData r) as [reg|]; [|discriminate].
      exists reg. split; auto. apply Nat.leb_le in H. rewrite G in H. exact H.
    - intros [reg [E H]]. rewrite E. rewrite <- G in H. split.
      + apply K. unfold c2.
        destruct (In_dec string_dec r (map_keys c2)) as [I|I]; [apply K, I|].
        exfalso.
        assert (Z0 : get_or_0 c2 r = 0).
        { unfold get_or_0. destruct (map_get c2 r) eqn:M; auto.
          exfalso. apply I. clear - M. unfold map_keys.
          induction c2 as [|[k v] m IH]; simpl in *; [discriminate|].
          destruct (String.eqb r k) eqn:E; [left; symmetry; apply String.eqb_eq, E|].
          right. apply IH, M. }
        rewrite Z0 in H. unfold required_or_1 in H.
        destruct (requiredUnits reg) as [[|n]|]; lia.
      + apply Nat.leb_le, H. }
  destruct A as [A1 A2].
  destruct (length (filter (activePred regionsData c2) (map_keys c2)) <? 4) eqn:E;
    cbn [valid v_activeRegions];
    (split; [exact A1|]; split; [exact A2|]); symmetry.
  - apply Nat.leb_gt. apply Nat.ltb_lt in E. exact E.
  - apply Nat.leb_le. apply Nat.ltb_ge in E. exact E.
Qed.

Lemma valid_iff (team : list Unit) :
  valid (isValidComposition regionsData team emblem1 emblem2) = true
  <-> hasCarrier team emblem1 /\ hasCarrier team emblem2
      /\ exists rs, NoDup rs /\ length rs = 4
                    /\ forall r, In r rs -> regionActive regionsData team emblem1 emblem2 r.
Proof.
  split.
  - intros V.
    destruct (find (fun u => negb (includes (regions u) emblem1)) team) as [u1|] eqn:F1;
      [|unfold isValidComposition in V; rewrite F1 in V; discriminate].
    destruct (find (fun u => negb (includes (regions u) emblem2)) team) as [u2|] eqn:F2;
      [|unfold isValidComposition in V; rewrite F1, F2 in V; discriminate].
    destruct (active_regions_of team F1 F2) as [N [A E]].
    rewrite V in E. symmetry in E. apply Nat.leb_le in E.
    split; [apply find_carrier; eauto|]. split; [apply find_carrier; eauto|].
    exists (firstn 4 (v_activeRegions (isValidComposition regionsData team emblem1 emblem2))).
    repeat split.
    + rewrite <- (firstn_skipn 4) in N. apply NoDup_app_remove_r in N. exact N.
    + rewrite length_firstn. lia.
    + intros r Hr. apply A. rewrite <- (firstn_skipn 4). apply in_or_app. auto.
  - intros [C1 [C2 [rs [N [L A]]]]].
    apply find_carrier in C1, C2. destruct C1 as [u1 F1], C2 as [u2 F2].
    destruct (active_regions_of team F1 F2) as [Na [Aa E]].
    rewrite E. apply Nat.leb_le. rewrite <- L.
    apply NoDup_incl_length; auto.
    intros r Hr. apply Aa, A, Hr.
Qed.

(** X4. The active regions of a verdict are pairwise distinct and each has
    reached its requirement; an invalid verdict carries no emblem
    assignment; a valid one assigns each emblem to the first unit, in team
    order, that does not carry the emblem's region. *)
Theorem isValidComposition_parts (team : list Unit) :
  let v := isValidComposition regionsData team emblem1 emblem2 in
  NoDup (v_activeRegions v)
  /\ (forall r, In r (v_activeRegions v) -> regionActive regionsData team emblem1 emblem2 r)
  /\ (valid v = false -> v_emblemAssignments v = [])
  /\ (valid v = true ->
      exists pre1 u1 post1 pre2 u2 post2,
        team = pre1 ++ u1 :: post1 /\ team = pre2 ++ u2 :: post2
        /\ Forall (fun u => In emblem1 (regions u)) pre1 /\ ~ In emblem1 (regions u1)
        /\ Forall (fun u => In emblem2 (regions u)) pre2 /\ ~ In emblem2 (regions u2)
        /\ v_emblemAssignments v
           = [mkAssignment (id u1) emblem1; mkAssignment (id u2) emblem2]).
Proof.
  intros v. unfold v.
  destruct (find (fun u => negb (includes (regions u) emblem1)) team) as [u1|] eqn:F1.
  2:{ unfold isValidComposition. rewrite F1. simpl.
      repeat split; auto; try constructor; try discriminate. intros r []. }
  destruct (find (fun u => negb (includes (regions u) emblem2)) team) as [u2|] eqn:F2.
  2:{ unfold isValidComposition. rewrite F1, F2. simpl.
      repeat split; auto; try constructor; try discriminate. intros r []. }
  destruct (active_regions_of team F1 F2) as [N [A E]].
  split; [exact N|]. split; [intros r; apply A|].
  unfold isValidComposition in *. rewrite F1, F2 in *. cbv zeta in *.
  match goal with |- context [length ?a <? 4] => destruct (length a <? 4) end; simpl.
  - split; [reflexivity | discriminate].
  - split; [discriminate|]. intros _.
    destruct (find_split _ _ F1) as [pre1 [post1 [T1 [P1 Q1]]]].
    destruct (find_split _ _ F2) as [pre2 [post2 [T2 [P2 Q2]]]].
    exists pre1, u1, post1, pre2, u2, post2.
    repeat split; auto.
    + eapply Forall_impl; [|exact Q1]. simpl. intros u H.
      apply negb_false_iff, includes_In in H. exact H.
    + intros H. apply includes_In in H. rewrite H in P1. discriminate.
    + eapply Forall_impl; [|exact Q2]. simpl. intros u H.
      apply negb_false_iff, includes_In in H. exact H.
    + intros H. apply includes_In in H. rewrite H in P2. discriminate.
Qed.

(** X5. A team is valid exactly when it has a carrier for each emblem and four
    distinct catalog regions reach their requirement, counting native
    listings plus one per emblem of that region; so the verdict does not
    depend on the order of the team. *)
Theorem isValidComposition_iff (team : list Unit) :
  (valid (isValidComposition regionsData team emblem1 emblem2) = true
   <-> hasCarrier team emblem1 /\ hasCarrier team emblem2
       /\ exists rs, NoDup rs /\ length rs = 4
                     /\ forall r, In r rs -> regionActive regionsData team emblem1 emblem2 r)
  /\ (forall team', Permutation team team' ->
        valid (isValidComposition regionsData team' emblem1 emblem2)
        = valid (isValidComposition regionsData team emblem1 emblem2)).
Proof.
  split; [apply valid_iff|]. intros team' P.
  assert (Q : forall t t', Permutation t t' ->
                valid (isValidComposition regionsData t emblem1 emblem2) = true ->
                valid (isValidComposition regionsData t' emblem1 emblem2) = true).
  { intros t t' Pt V. apply valid_iff in V. apply valid_iff.
    destruct V as [[a [Ia Na]] [[b [Ib Nb]] [rs [N [L A]]]]].
    split; [exists a; split; auto; eapply Permutation_in; eauto|].
    split; [exists b; split; auto; eapply Permutation_in; eauto|].
    exists rs. repeat split; auto.
    intros r Hr. destruct (A r Hr) as [reg [E H]]. exists reg. split; auto.
    unfold nativeCount in *.
    assert (Pf : Permutation (flat_map regions t) (flat_map regions t'))
      by (apply Permutation_flat_map, Pt).
    rewrite <- (proj1 (Permutation_count_occ string_dec _ _) Pf r). exact H. }
  destruct (valid (isValidComposition regionsData team emblem1 emblem2)) eqn:V.
  - eapply Q; eauto.
  - destruct (valid (isValidComposition regionsData team' emblem1 emblem2)) eqn:V'; auto.
    rewrite <- V. symmetry. eapply Q; [apply Permutation_sym, P | exact V'].
Qed.
End ValidatorFacts.

(* ================================================================= *)
(** ** Pool filtering and id deduplication *)

(** Sorting on a two-valued key with the stable sort is a stable partition. *)
Lemma sort_by_flag {A} (flag : A -> bool) (l : list A) :
  sort_by (fun a b => ((if flag a then 1 else 0) - (if flag b then 1 else 0))%Z) l
  = filter (fun a => negb (flag a)) l ++ filter flag l.
Proof.
  set (cmp := fun a b => ((if flag a then 1 else 0) - (if flag b then 1 else 0))%Z).
  assert (Ins : forall x l1 l2,
             Forall (fun a => flag a = false) l1 -> Forall (fun a => flag a = true) l2 ->
             insert_by cmp x (l1 ++ l2)
             = if flag x then l1 ++ x :: l2 else x :: l1 ++ l2).
  { intros x l1 l2 F1 F2. induction F1 as [|y l1 Hy F1 IH]; simpl.
    - destruct F2 as [|y l2 Hy F2]; simpl.
      + destruct (flag x); reflexivity.
      + unfold cmp. rewrite Hy. destruct (flag x); reflexivity.
    - unfold cmp at 1. rewrite Hy. destruct (flag x) eqn:E; simpl.
      + rewrite IH. reflexivity.
      + reflexivity. }
  induction l as [|x l IH]; simpl; auto.
  rewrite IH, Ins.
  - destruct (flag x); reflexivity.
  - apply Forall_forall. intros a Ha. apply filter_In in Ha.
    destruct Ha as [_ Ha]. apply negb_true_iff in Ha. exact Ha.
  - apply Forall_forall. intros a Ha. apply filter_In in Ha. tauto.
Qed.

Lemma filterUnits_split (us : list Unit) (config : SolverConfig) :
  filterUnits us config
  = filter (fun u => negb (unlockable u)) (filter (allowed config) us)
    ++ filter unlockable (filter (allowed config) us).
Proof.
  unfold filterUnits. cbv zeta. rewrite sort_by_flag.
  assert (E : match cfg_excludedUnits config with
              | Some (e :: es) =>
                  filter (fun u => negb (includes (e :: es) (id u)))
                    match cfg_requiredUnits config with
                    | Some (r :: rs) => filter (fun u => includes (r :: rs) (id u)) us
                    | _ => us
                    end
              | _ =>
                  match cfg_requiredUnits config with
                  | Some (r :: rs) => filter (fun u => includes (r :: rs) (id u)) us
                  | _ => us
                  end
              end = filter (allowed config) us).
  { unfold allowed.
    assert (T : forall l : list Unit, filter (fun _ => true) l = l)
      by (induction l; simpl; congruence).
    assert (FF : forall (p q : Unit -> bool) l,
               filter q (filter p l) = filter (fun u => p u && q u) l).
    { intros p q l. induction l as [|a l IH]; simpl; auto.
      destruct (p a); simpl; [destruct (q a)|]; congruence. }
    destruct (cfg_requiredUnits config) as [[|r rs]|],
             (cfg_excludedUnits config) as [[|e es]|];
      rewrite ?FF; simpl; rewrite ?T; auto;
      apply filter_ext; intros u; rewrite ?andb_true_r; reflexivity. }
  rewrite E. reflexivity.
Qed.

Lemma uniqueUnits_from_facts (arr : list Unit) (seen : list string) :
  subseq (uniqueUnits_from seen arr) arr
  /\ NoDup (map id (uniqueUnits_from seen arr))
  /\ (forall i, In i (map id (uniqueUnits_from seen arr))
                <-> In i (map id arr) /\ ~ In i seen)
  /\ (NoDup (map id arr) -> (forall i, In i (map id arr) -> ~ In i seen) ->
      uniqueUnits_from seen arr = arr).
Proof.
  revert seen. induction arr as [|u arr IH]; intros seen; simpl.
  - split; [constructor|]. split; [constructor|]. split; [tauto | reflexivity].
  - destruct (includes seen (id u)) eqn:E.
    + apply includes_In in E. destruct (IH seen) as [Hs [N [M I]]].
      split; [constructor; exact Hs|]. split; [exact N|]. split.
      * intros i. rewrite M. split; [tauto|].
        intros [[<-|H] H']; [tauto | tauto].
      * intros _ H. exfalso. apply (H (id u)); auto.
    + assert (E' : ~ In (id u) seen)
        by (intros H; apply includes_In in H; congruence).
      destruct (IH (seen ++ [id u])) as [Hs [N [M I]]].
      split; [constructor; exact Hs|]. split; [|split].
      * simpl. constructor; auto. intros H. apply M in H.
        destruct H as [_ H]. apply H, in_or_app. simpl; auto.
      * intros i. simpl. rewrite M, in_app_iff. simpl. split.
        -- intros [<-|[H H']]; [auto | tauto].
        -- intros [[<-|H] H']; auto.
           destruct (string_dec (id u) i) as [->|Hne]; auto.
           right. split; auto. intros [H''|[H''|[]]]; auto.
      * intros ND H. inversion ND; subst. f_equal. apply I; auto.
        intros i Hi H'. apply in_app_or in H'. destruct H' as [H'|[<-|[]]].
        -- apply (H i); auto.
        -- auto.
Qed.

Lemma uniqueUnits_facts (arr : list Unit) :
  subseq (uniqueUnits arr) arr
  /\ NoDup (map id (uniqueUnits arr))
  /\ (forall i, In i (map id (uniqueUnits arr)) <-> In i (map id arr))
  /\ (NoDup (map id arr) -> uniqueUnits arr = arr).
Proof.
  destruct (uniqueUnits_from_facts arr []) as [S [N [M I]]].
  repeat split; auto.
  - intros H. apply M in H. tauto.
  - intros H. apply M. auto.
Qed.

(** X6. [uniqueUnits] keeps a subsequence with pairwise distinct ids and the
    same set of ids, leaves an input with distinct ids unchanged, and is
    idempotent. *)
Theorem uniqueUnits_spec (arr : list Unit) :
  subseq (uniqueUnits arr) arr
  /\ NoDup (map id (uniqueUnits arr))
  /\ (forall i, In i (map id (uniqueUnits arr)) <-> In i (map id arr))
  /\ (NoDup (map id arr) -> uniqueUnits arr = arr)
  /\ uniqueUnits (uniqueUnits arr) = uniqueUnits arr.
Proof.
  destruct (uniqueUnits_facts arr) as [Hs [N [M I]]].
  repeat split; auto; try apply M.
  apply (uniqueUnits_facts (uniqueUnits arr)), N.
Qed.

(* ================================================================= *)
(** ** The state invariant of the search *)

(** As [for_of_inv], for a body that keeps the invariant on the items of
    the list only. *)
Lemma for_of_inv_In {A S} (P : S -> Prop) (body : A -> S -> S * bool) xs st :
  P st -> (forall x s, In x xs -> P s -> P (fst (body x s))) -> P (for_of xs body st).
Proof.
  revert st. induction xs as [|x r IH]; intros st H0 Hb; simpl; auto.
  pose proof (Hb x st (or_introl eq_refl) H0) as Hx.
  destruct (body x st) as [st' brk]. simpl in Hx.
  destruct brk; auto. apply IH; auto. intros y s Hy. apply Hb. right. exact Hy.
Qed.

Lemma filter_subseq {A} (p : A -> bool) (l : list A) : subseq (filter p l) l.
Proof.
  induction l as [|x l IH]; simpl; [constructor|].
  destruct (p x); [apply subseq_take | apply subseq_skip]; exact IH.
Qed.

Lemma firstn_incl {A} n (l : list A) : incl (firstn n l) l.
Proof.
  intros x Hx. rewrite <- (firstn_skipn n l). apply in_or_app. auto.
Qed.

Lemma filter_partition_perm {A} (p : A -> bool) (l : list A) :
  Permutation (filter (fun a => negb (p a)) l ++ filter p l) l.
Proof.
  induction l as [|x l IH]; simpl; auto.
  destruct (p x); simpl.
  - apply Permutation_sym, Permutation_cons_app, Permutation_sym, IH.
  - constructor. exact IH.
Qed.

Section PoolFacts.
Variable unitsData : list Unit.
Variable config : SolverConfig.

Lemma filteredUnits_perm :
  Permutation (filteredUnits unitsData config) (filter (allowed config) unitsData).
Proof. unfold filteredUnits. rewrite filterUnits_split. apply filter_partition_perm. Qed.

Lemma filteredUnits_NoDup :
  NoDup (map id unitsData) -> NoDup (map id (filteredUnits unitsData config)).
Proof.
  intros N. eapply Permutation_NoDup.
  - apply Permutation_map, Permutation_sym, filteredUnits_perm.
  - eapply subseq_map_NoDup; [apply filter_subseq | exact N].
Qed.

Lemma inRegion_incl r : incl (inRegion unitsData config r) (filteredUnits unitsData config).
Proof. intros u Hu. apply filter_In in Hu. tauto. Qed.
End PoolFacts.

Section SearchInvFacts.
Variable unitsData : list Unit.
Variable regionsData : list Region.
Variables emblem1 emblem2 : string.
Variable config : SolverConfig.

Lemma store_searchInv size team c st :
  In size (sizes unitsData config) ->
  teamFacts unitsData config size team ->
  valid (isValidComposition regionsData team emblem1 emblem2) = true ->
  c = None \/ c = Some (sumCost team) ->
  searchInv unitsData regionsData emblem1 emblem2 config st ->
  searchInv unitsData regionsData emblem1 emblem2 config
    (store team (isValidComposition regionsData team emblem1 emblem2) c st).
Proof.
  intros Hs Ht V Hc [F [K N]]. unfold store.
  destruct (includes (seenCompositions st) (compositionKey team)) eqn:E;
    [split; auto|].
  unfold searchInv. simpl. split; [|split].
  - apply Forall_app. split; auto. constructor; [|constructor].
    exists size, team, c. auto.
  - rewrite map_app, K. reflexivity.
  - apply NoDup_app; auto.
    + repeat constructor. intros [].
    + intros k Hk [<-|[]]. apply includes_In in Hk. congruence.
Qed.

Lemma validateSmart_searchInv size team st :
  In size (sizes unitsData config) ->
  teamFacts unitsData config size team ->
  searchInv unitsData regionsData emblem1 emblem2 config st ->
  searchInv unitsData regionsData emblem1 emblem2 config
    (validateSmart regionsData emblem1 emblem2 team st).
Proof.
  intros Hs Ht H. unfold validateSmart.
  destruct (valid (isValidComposition regionsData team emblem1 emblem2)) eqn:V.
  - apply (store_searchInv (size := size)); auto.
  - exact H.
Qed.

Lemma dedup_facts (dedup : list Unit -> list Unit) :
  dedup = uniqueUnits \/ dedup = (fun team => team) ->
  forall l, incl (dedup l) l /\ length (dedup l) <= length l
            /\ (forall i, In i (map id (dedup l)) -> In i (map id l)).
Proof.
  intros [->| ->] l.
  - destruct (uniqueUnits_facts l) as [Hs [_ [M _]]].
    split; [apply subseq_incl, Hs|]. split; [apply subseq_length, Hs|].
    intros i. apply M.
  - split; [apply incl_refl|]. split; auto.
Qed.

Lemma fill_teamFacts dedup base fill size :
  dedup = uniqueUnits \/ dedup = (fun team => team) ->
  incl base (filteredUnits unitsData config) ->
  length (dedup base) < size ->
  subseq fill (filter (fun u => negb (includes (map id base) (id u)))
                      (filteredUnits unitsData config)) ->
  length fill = size - length (dedup base) ->
  teamFacts unitsData config size (dedup (dedup base ++ fill)).
Proof.
  intros Hd Hb Hl Hs Hf.
  destruct (dedup_facts Hd base) as [I1 [L1 M1]].
  destruct (dedup_facts Hd (dedup base ++ fill)) as [I2 [L2 _]].
  assert (If : incl fill (filteredUnits unitsData config)).
  { intros u Hu. apply (subseq_incl Hs) in Hu. apply filter_In in Hu. tauto. }
  assert (Len : length (dedup base ++ fill) = size) by (rewrite length_app; lia).
  split; [|split].
  - intros u Hu. apply I2 in Hu. apply in_app_or in Hu.
    destruct Hu as [Hu|Hu]; auto.
  - lia.
  - intros N. destruct Hd as [->| ->]; [|exact Len].
    rewrite (proj2 (proj2 (proj2 (uniqueUnits_facts (uniqueUnits base ++ fill))))); auto.
    rewrite map_app. apply NoDup_app.
    + apply (uniqueUnits_facts base).
    + eapply subseq_map_NoDup; [exact Hs|].
      eapply subseq_map_NoDup; [apply filter_subseq|].
      apply filteredUnits_NoDup, N.
    + intros i Hi Hi'. apply M1 in Hi.
      apply in_map_iff in Hi'. destruct Hi' as [u [<- Hu]].
      apply (subseq_incl Hs) in Hu. apply filter_In in Hu. destruct Hu as [_ Hu].
      apply negb_true_iff in Hu. apply includes_In in Hi. congruence.
Qed.

Lemma fillerLoop_searchInv prechecked dedup size maxForSize e1 e2 t pairs st :
  dedup = uniqueUnits \/ dedup = (fun team => team) ->
  In size (sizes unitsData config) ->
  incl e1 (filteredUnits unitsData config) ->
  incl e2 (filteredUnits unitsData config) ->
  In t (filteredUnits unitsData config) ->
  Forall (fun p => incl p (filteredUnits unitsData config)) pairs ->
  searchInv unitsData regionsData emblem1 emblem2 config st ->
  searchInv unitsData regionsData emblem1 emblem2 config
    (fillerLoop unitsData regionsData emblem1 emblem2 config prechecked dedup
                size maxForSize e1 e2 t pairs st).
Proof.
  intros Hd Hs H1 H2 Ht Hp H. unfold fillerLoop.
  apply for_of_inv_In; auto.
  intros pair s Hin Hinv.
  assert (Hpair : incl pair (filteredUnits unitsData config)).
  { rewrite Forall_forall in Hp. apply Hp, (firstn_incl 10), Hin. }
  assert (Hbase : incl (e1 ++ e2 ++ [t] ++ pair) (filteredUnits unitsData config)).
  { intros u Hu. repeat (apply in_app_or in Hu; destruct Hu as [Hu|Hu]); auto.
    destruct Hu as [<-|[]]. exact Ht. }
  destruct (dedup_facts Hd (e1 ++ e2 ++ [t] ++ pair)) as [I1 [L1 _]].
  destruct (checkedCount s >=? maxForSize)%Z; cbn [fst]; auto.
  destruct (length (dedup (e1 ++ e2 ++ [t] ++ pair)) =? size) eqn:E.
  - apply Nat.eqb_eq in E.
    assert (TF : teamFacts unitsData config size (dedup (e1 ++ e2 ++ [t] ++ pair))).
    { split; [|split]; try lia. intros u Hu. apply Hbase, I1, Hu. }
    destruct (prechecked && _); cbn [fst]; [exact Hinv|].
    apply (validateSmart_searchInv (size := size)); [exact Hs | exact TF | exact Hinv].
  - destruct (length (dedup (e1 ++ e2 ++ [t] ++ pair)) <? size) eqn:E'; cbn [fst]; auto.
    apply Nat.ltb_lt in E'.
    apply for_of_inv_In; auto.
    intros fill s' Hfill Hs'.
    destruct (checkedCount s' >=? maxForSize)%Z; cbn [fst]; auto.
    assert (TF : teamFacts unitsData config size
                   (dedup (dedup (e1 ++ e2 ++ [t] ++ pair) ++ fill))).
    { apply generateCombinations_sound in Hfill. destruct Hfill as [Sf Lf].
      apply fill_teamFacts; auto.
      rewrite !map_app. simpl. exact Sf. }
    destruct (prechecked && _); cbn [fst]; [exact Hs'|].
    apply (validateSmart_searchInv (size := size)); [exact Hs | exact TF | exact Hs'].
Qed.

Lemma generated_incl (l : list Unit) k m :
  incl l (filteredUnits unitsData config) ->
  Forall (fun p => incl p (filteredUnits unitsData config)) (generateCombinations l k m).
Proof.
  intros H. apply Forall_forall. intros c Hc u Hu.
  apply generateCombinations_sound in Hc. destruct Hc as [Hs _].
  apply H, (subseq_incl Hs), Hu.
Qed.

Lemma smartPhase_searchInv size maxForSize st :
  In size (sizes unitsData config) ->
  searchInv unitsData regionsData emblem1 emblem2 config st ->
  searchInv unitsData regionsData emblem1 emblem2 config
    (smartPhase unitsData regionsData emblem1 emblem2 config size maxForSize st).
Proof.
  intros Hs H. unfold smartPhase. cbv zeta.
  match goal with |- context [if ?b then _ else _] => destruct b end; auto.
  assert (G : forall e need,
             Forall (fun p => incl p (filteredUnits unitsData config))
                    (if 0 <? need
                     then generateCombinations (inRegion unitsData config e) need 80
                     else [[]])).
  { intros e need. destruct (0 <? need).
    - apply generated_incl, inRegion_incl.
    - constructor; [intros u []|constructor]. }
  apply for_of_inv_In; auto. intros g1 s1 Hg1 H1. simpl.
  apply for_of_inv_In; auto. intros g2 s2 Hg2 H2. simpl.
  apply for_of_inv_In; auto. intros t s3 Ht H3. simpl.
  assert (I1 : incl g1 (filteredUnits unitsData config)).
  { pose proof (G emblem1 (required_of regionsData emblem1 - 1)) as F.
    rewrite Forall_forall in F. apply F, (firstn_incl 60), Hg1. }
  assert (I2 : incl g2 (filteredUnits unitsData config)).
  { pose proof (G emblem2 (required_of regionsData emblem2 - 1)) as F.
    rewrite Forall_forall in F. apply F, (firstn_incl 60), Hg2. }
  assert (It : In t (filteredUnits unitsData config)).
  { apply (inRegion_incl unitsData config "targon"), (firstn_incl 10), Ht. }
  repeat (apply fillerLoop_searchInv; auto;
          try (apply generated_incl, inRegion_incl)).
Qed.

Lemma bruteForcePhase_searchInv size maxForSize st :
  In size (sizes unitsData config) ->
  searchInv unitsData regionsData emblem1 emblem2 config st ->
  searchInv unitsData regionsData emblem1 emblem2 config
    (bruteForcePhase unitsData regionsData emblem1 emblem2 config size maxForSize st).
Proof.
  intros Hs H. unfold bruteForcePhase.
  apply for_of_inv_In; auto.
  intros team s Hteam Hinv.
  apply generateCombinations_sound in Hteam. destruct Hteam as [Sb Lb].
  destruct (results_full (bump_checked s)); cbn [fst]; [exact Hinv|].
  destruct (checkedCount (bump_checked s) >? maxForSize)%Z; cbn [fst]; [exact Hinv|].
  destruct (valid (isValidComposition regionsData team emblem1 emblem2)) eqn:V;
    cbn [fst]; [|exact Hinv].
  apply (store_searchInv (size := size)); auto.
  split; [apply subseq_incl, Sb|]. split; [lia | auto].
Qed.

Lemma searchLoop_searchInv :
  searchInv unitsData regionsData emblem1 emblem2 config
    (searchLoop unitsData regionsData emblem1 emblem2 config initialState).
Proof.
  unfold searchLoop. apply for_of_inv_In.
  - split; [constructor|]. split; [reflexivity | constructor].
  - intros size s Hs H. destruct (results_full s); cbn [fst]; auto.
    unfold sizeIteration. cbv zeta.
    match goal with |- context [if ?b then _ else _] => destruct b end.
    + apply bruteForcePhase_searchInv, smartPhase_searchInv; auto.
    + apply smartPhase_searchInv; auto.
Qed.
End SearchInvFacts.

(** X7. [filterUnits] returns the units that pass the allow and deny lists,
    the always-available ones first and the unlockable ones after them,
    each group in catalog order; nothing else is added or lost. *)
Theorem filterUnits_partition (us : list Unit) (config : SolverConfig) :
  filterUnits us config
  = filter (fun u => negb (unlockable u)) (filter (allowed config) us)
    ++ filter unlockable (filter (allowed config) us)
  /\ Permutation (filterUnits us config) (filter (allowed config) us)
  /\ (forall u, In u (filterUnits us config) <-> In u us /\ allowed config u = true).
Proof.
  split; [apply filterUnits_split|].
  assert (P : Permutation (filterUnits us config) (filter (allowed config) us))
    by (rewrite filterUnits_split; apply filter_partition_perm).
  split; [exact P|]. intros u. rewrite <- filter_In. split.
  - apply Permutation_in, P.
  - apply Permutation_in, Permutation_sym, P.
Qed.

(* ================================================================= *)
(** ** What the search returns *)

Lemma insert_by_perm {A} (cmp : A -> A -> Z) x (l : list A) :
  Permutation (insert_by cmp x l) (x :: l).
Proof.
  induction l as [|y l IH]; simpl; auto.
  destruct (cmp x y <=? 0)%Z; auto.
  eapply perm_trans; [apply perm_skip, IH | apply perm_swap].
Qed.

Lemma sort_by_perm {A} (cmp : A -> A -> Z) (l : list A) : Permutation (sort_by cmp l) l.
Proof.
  induction l as [|x l IH]; simpl; auto.
  eapply perm_trans; [apply insert_by_perm | apply perm_skip, IH].
Qed.

(** The stable sort sorts, for a comparator that is total and transitive. *)
Lemma sort_by_sorted {A} (cmp : A -> A -> Z) (l : list A) :
  (forall a b, (0 < cmp a b)%Z -> (cmp b a <= 0)%Z) ->
  (forall a b c, (cmp a b <= 0)%Z -> (cmp b c <= 0)%Z -> (cmp a c <= 0)%Z) ->
  StronglySorted (fun a b => (cmp a b <= 0)%Z) (sort_by cmp l).
Proof.
  intros Tot Tr.
  assert (Ins : forall x s, StronglySorted (fun a b => (cmp a b <= 0)%Z) s ->
                            StronglySorted (fun a b => (cmp a b <= 0)%Z) (insert_by cmp x s)).
  { intros x s Hs. induction Hs as [|y s Hs IH F]; simpl.
    - repeat constructor.
    - destruct (cmp x y <=? 0)%Z eqn:E.
      + apply Z.leb_le in E. constructor; [constructor; auto|].
        constructor; auto. eapply Forall_impl; [|exact F]. simpl. eauto.
      + apply Z.leb_gt in E. constructor; auto.
        apply Forall_forall. intros z Hz.
        apply (Permutation_in _ (insert_by_perm cmp x s)) in Hz.
        destruct Hz as [<-|Hz]; [apply Tot, E|].
        rewrite Forall_forall in F. apply F, Hz. }
  induction l as [|x l IH]; simpl; [constructor | apply Ins, IH].
Qed.

Lemma compareResults_le (a b : SolverResult) :
  (compareResults a b <= 0)%Z
  <-> unitCount a < unitCount b
      \/ (unitCount a = unitCount b
          /\ ((costOr0 a < costOr0 b)%Z
              \/ (costOr0 a = costOr0 b /\ regionCount b <= regionCount a))).
Proof.
  unfold compareResults, costOr0.
  destruct (Nat.eqb_spec (unitCount a) (unitCount b)); simpl; [|lia].
  match goal with |- context [Z.eqb ?x ?y] => destruct (Z.eqb_spec x y) end; simpl; lia.
Qed.

Section ReturnedFacts.
Variable unitsData : list Unit.
Variable regionsData : list Region.
Variables emblem1 emblem2 : string.
Variable config : SolverConfig.

Lemma solveWorldRunes_perm :
  solveWorldRunes unitsData regionsData emblem1 emblem2 config = []
  \/ Permutation (solveWorldRunes unitsData regionsData emblem1 emblem2 config)
                 (results (searchLoop unitsData regionsData emblem1 emblem2 config initialState)).
Proof.
  unfold solveWorldRunes.
  destruct (_ || _); auto.
  destruct (getRegionById regionsData emblem1); auto.
  destruct (getRegionById regionsData emblem2); auto.
  right. apply sort_by_perm.
Qed.

Lemma solveWorldRunes_stored (r : SolverResult) :
  In r (solveWorldRunes unitsData regionsData emblem1 emblem2 config) ->
  storedFrom unitsData regionsData emblem1 emblem2 config r.
Proof.
  intros H. destruct solveWorldRunes_perm as [E|P].
  - rewrite E in H. destruct H.
  - apply (Permutation_in _ P) in H.
    destruct (searchLoop_searchInv unitsData regionsData emblem1 emblem2 config) as [F _].
    rewrite Forall_forall in F. apply F, H.
Qed.

(** X8. In every returned result [unitCount] and [regionCount] are the lengths
    of its unit list and of its active-region list, and [totalCost], when
    present, is the sum of the unit costs. *)
Theorem solveWorldRunes_summaries (r : SolverResult) :
  In r (solveWorldRunes unitsData regionsData emblem1 emblem2 config) ->
  unitCount r = length (units (composition r))
  /\ regionCount r = length (activeRegions (composition r))
  /\ (totalCost r = None \/ totalCost r = Some (sumCost (units (composition r)))).
Proof.
  intros H. apply solveWorldRunes_stored in H.
  destruct H as [size [team [c [_ [_ [_ [Hc ->]]]]]]]. simpl. auto.
Qed.

(** X9. In every returned result the active regions are pairwise distinct, at
    least four, and are exactly the catalog regions whose requirement is
    reached by the composition's units and the two emblems. *)
Theorem solveWorldRunes_active_regions (r : SolverResult) :
  In r (solveWorldRunes unitsData regionsData emblem1 emblem2 config) ->
  NoDup (activeRegions (composition r))
  /\ 4 <= length (activeRegions (composition r))
  /\ forall x, In x (activeRegions (composition r))
               <-> regionActive regionsData (units (composition r)) emblem1 emblem2 x.
Proof.
  intros H. apply solveWorldRunes_stored in H.
  destruct H as [size [team [c [_ [_ [V [_ ->]]]]]]]. simpl.
  destruct (find (fun u => negb (includes (regions u) emblem1)) team) as [u1|] eqn:F1;
    [|unfold isValidComposition in V; rewrite F1 in V; discriminate].
  destruct (find (fun u => negb (includes (regions u) emblem2)) team) as [u2|] eqn:F2;
    [|unfold isValidComposition in V; rewrite F1, F2 in V; discriminate].
  destruct (active_regions_of regionsData emblem1 emblem2 team F1 F2) as [N [A E]].
  split; [exact N|]. split; [|exact A].
  rewrite V in E. symmetry in E. apply Nat.leb_le in E. exact E.
Qed.

(** X10. Every returned result has at most [maxUnits], at most [maxBoardSize]
    and at most pool-size units, and, when the catalog's ids are pairwise
    distinct, at least [minUnits]. *)
Theorem solveWorldRunes_size_bounds (r : SolverResult) :
  In r (solveWorldRunes unitsData regionsData emblem1 emblem2 config) ->
  unitCount r <= maxUnits config
  /\ unitCount r <= maxBoardSize config
  /\ unitCount r <= length (filteredUnits unitsData config)
  /\ (NoDup (map id unitsData) -> minUnits config <= unitCount r).
Proof.
  intros H. apply solveWorldRunes_stored in H.
  destruct H as [size [team [c [Hs [[_ [L X]] [_ [_ ->]]]]]]]. simpl.
  unfold sizes in Hs. apply in_seq in Hs. unfold effectiveMaxUnits in Hs.
  repeat split; try lia. intros N. rewrite (X N). lia.
Qed.

(** X11. Every unit of a returned composition is a catalog unit that passes the
    allow and deny lists of the configuration: an excluded unit is never
    returned. *)
Theorem solveWorldRunes_units_from_pool (r : SolverResult) (u : Unit) :
  In r (solveWorldRunes unitsData regionsData emblem1 emblem2 config) ->
  In u (units (composition r)) ->
  In u unitsData /\ allowed config u = true.
Proof.
  intros H Hu. apply solveWorldRunes_stored in H.
  destruct H as [size [team [c [_ [[I _] [_ [_ ->]]]]]]]. simpl in Hu.
  apply I in Hu. apply (Permutation_in _ (filteredUnits_perm unitsData config)) in Hu.
  apply filter_In in Hu. exact Hu.
Qed.

(** X12. No two returned results have the same composition key (the sorted unit
    ids joined by commas). *)
Theorem solveWorldRunes_distinct_keys :
  NoDup (map (fun r => compositionKey (units (composition r)))
             (solveWorldRunes unitsData regionsData emblem1 emblem2 config)).
Proof.
  destruct solveWorldRunes_perm as [E|P].
  - rewrite E. constructor.
  - eapply Permutation_NoDup; [apply Permutation_map, Permutation_sym, P|].
    destruct (searchLoop_searchInv unitsData regionsData emblem1 emblem2 config)
      as [_ [K N]].
    rewrite <- K. exact N.
Qed.

(** X13. With fewer than four regions in the catalog the search returns the
    empty list. *)
Theorem solveWorldRunes_few_regions :
  length regionsData < 4 ->
  solveWorldRunes unitsData regionsData emblem1 emblem2 config = [].
Proof.
  intros L.
  destruct (solveWorldRunes unitsData regionsData emblem1 emblem2 config) as [|r l] eqn:E;
    [reflexivity|].
  exfalso.
  assert (H : In r (solveWorldRunes unitsData regionsData emblem1 emblem2 config))
    by (rewrite E; left; reflexivity).
  apply solveWorldRunes_stored in H.
  destruct H as [size [team [c [_ [_ [V _]]]]]].
  apply valid_iff in V. destruct V as [_ [_ [rs [N [L4 A]]]]].
  assert (I : incl rs (map region_id regionsData)).
  { intros x Hx. apply A in Hx. destruct Hx as [reg [G _]].
    unfold getRegionById in G. apply find_some in G. destruct G as [G1 G2].
    apply String.eqb_eq in G2. rewrite <- G2. apply in_map, G1. }
  apply (NoDup_incl_length N) in I. rewrite length_map in I. lia.
Qed.

(** X14. The returned list is ordered by [unitCount] ascending, then by
    [totalCost] (a missing one read as 0) ascending, then by [regionCount]
    descending. *)
Theorem solveWorldRunes_sorted :
  StronglySorted
    (fun a b => unitCount a < unitCount b
                \/ (unitCount a = unitCount b
                    /\ ((costOr0 a < costOr0 b)%Z
                        \/ (costOr0 a = costOr0 b /\ regionCount b <= regionCount a))))
    (solveWorldRunes unitsData regionsData emblem1 emblem2 config).
Proof.
  assert (S0 : forall l, StronglySorted
                 (fun a b => unitCount a < unitCount b
                  \/ (unitCount a = unitCount b
                      /\ ((costOr0 a < costOr0 b)%Z
                          \/ (costOr0 a = costOr0 b /\ regionCount b <= regionCount a))))
                 (sort_by compareResults l)).
  { intros l.
    assert (Hs : StronglySorted (fun a b => (compareResults a b <= 0)%Z)
                   (sort_by compareResults l)).
    { apply sort_by_sorted.
      - intros a b H.
        assert (~ (compareResults a b <= 0)%Z) by lia.
        rewrite compareResults_le in *. lia.
      - intros a b c. rewrite !compareResults_le. lia. }
    induction Hs as [|a s Hs IH F]; constructor; auto.
    eapply Forall_impl; [|exact F]. intros b. apply compareResults_le. }
  unfold solveWorldRunes.
  destruct (_ || _); [constructor|].
  destruct (getRegionById regionsData emblem1); [|constructor].
  destruct (getRegionById regionsData emblem2); [|constructor].
  apply S0.
Qed.

End ReturnedFacts.

(* ================================================================= *)
(** ** Budgets, the cap and the call trace *)

Section BudgetFacts.
Variable unitsData : list Unit.
Variable regionsData : list Region.
Variables emblem1 emblem2 : string.
Variable config : SolverConfig.

Lemma store_calls team (v : Validation) c st :
  validatorCalls (store team v c st) = validatorCalls st
  /\ checkedCount (store team v c st) = checkedCount st.
Proof.
  unfold store. destruct (includes (seenCompositions st) (compositionKey team)); auto.
Qed.

Lemma validateSmart_calls team st :
  validatorCalls (validateSmart regionsData emblem1 emblem2 team st)
  = team :: validatorCalls st
  /\ checkedCount (validateSmart regionsData emblem1 emblem2 team st) = checkedCount st.
Proof.
  unfold validateSmart.
  destruct (valid (isValidComposition regionsData team emblem1 emblem2)); auto.
  destruct (store_calls team (isValidComposition regionsData team emblem1 emblem2) None
              (bump_valid (record_call team st))) as [-> ->]. auto.
Qed.

(** X16. A filler loop that has the quick pre-checks (Piltover, Yordle) calls
    the validator only on teams that pass them. *)
Theorem prechecked_loop_calls dedup size maxForSize e1 e2 t pairs st team :
  In team (validatorCalls
             (fillerLoop unitsData regionsData emblem1 emblem2 config true dedup
                         size maxForSize e1 e2 t pairs st)) ->
  In team (validatorCalls st) \/ prefilter regionsData emblem1 emblem2 team = true.
Proof.
  revert team.
  apply (for_of_inv
           (fun s => forall team, In team (validatorCalls s) ->
                       In team (validatorCalls st)
                       \/ prefilter regionsData emblem1 emblem2 team = true)); auto.
  intros pair s Hs.
  destruct (checkedCount s >=? maxForSize)%Z; cbn [fst]; auto.
  destruct (length _ =? size).
  - destruct (prefilter regionsData emblem1 emblem2 _) eqn:E; cbn [andb negb fst]; auto.
    intros team Ht. rewrite (proj1 (validateSmart_calls _ _)) in Ht.
    destruct Ht as [<-|Ht]; auto.
  - destruct (length _ <? size); cbn [fst]; auto.
    apply (for_of_inv
             (fun s => forall team, In team (validatorCalls s) ->
                         In team (validatorCalls st)
                         \/ prefilter regionsData emblem1 emblem2 team = true)); auto.
    intros fill s' Hs'.
    destruct (checkedCount s' >=? maxForSize)%Z; cbn [fst]; auto.
    destruct (prefilter regionsData emblem1 emblem2 _) eqn:E; cbn [andb negb fst]; auto.
    intros team Ht. rewrite (proj1 (validateSmart_calls _ _)) in Ht.
    destruct Ht as [<-|Ht]; auto.
Qed.

Lemma validate_withinBudget n0 maxForSize team s :
  (checkedCount s < maxForSize)%Z ->
  withinBudget n0 maxForSize s ->
  withinBudget n0 maxForSize
    (validateSmart regionsData emblem1 emblem2 team (bump_checked s)).
Proof.
  intros G [B1 B2]. unfold withinBudget.
  destruct (validateSmart_calls team (bump_checked s)) as [-> ->].
  cbn [validatorCalls checkedCount bump_checked length].
  rewrite Nat2Z.inj_succ. lia.
Qed.

Lemma bump_withinBudget n0 maxForSize s :
  withinBudget n0 maxForSize s -> withinBudget n0 maxForSize (bump_checked s).
Proof. intros [B1 B2]. unfold withinBudget. simpl. lia. Qed.

Lemma fillerLoop_withinBudget n0 prechecked dedup size maxForSize e1 e2 t pairs st :
  withinBudget n0 maxForSize st ->
  withinBudget n0 maxForSize
    (fillerLoop unitsData regionsData emblem1 emblem2 config prechecked dedup
                size maxForSize e1 e2 t pairs st).
Proof.
  intros H. unfold fillerLoop. apply for_of_inv; auto.
  intros pair s Hs.
  destruct (checkedCount s >=? maxForSize)%Z eqn:G; cbn [fst]; auto.
  rewrite Z.geb_leb in G. apply Z.leb_gt in G.
  destruct (length _ =? size).
  - destruct (prechecked && _); cbn [fst].
    + apply bump_withinBudget, Hs.
    + apply validate_withinBudget; auto.
  - destruct (length _ <? size); cbn [fst]; auto.
    apply for_of_inv; auto.
    intros fill s' Hs'.
    destruct (checkedCount s' >=? maxForSize)%Z eqn:G'; cbn [fst]; auto.
    rewrite Z.geb_leb in G'. apply Z.leb_gt in G'.
    destruct (prechecked && _); cbn [fst].
    + apply bump_withinBudget, Hs'.
    + apply validate_withinBudget; auto.
Qed.

Lemma smartPhase_withinBudget n0 size maxForSize st :
  withinBudget n0 maxForSize st ->
  withinBudget n0 maxForSize
    (smartPhase unitsData regionsData emblem1 emblem2 config size maxForSize st).
Proof.
  intros H. unfold smartPhase. cbv zeta.
  match goal with |- context [if ?b then _ else _] => destruct b end; auto.
  apply for_of_inv; auto. intros g1 s1 H1. cbn [fst].
  apply for_of_inv; auto. intros g2 s2 H2. cbn [fst].
  apply for_of_inv; auto. intros t s3 H3. cbn [fst].
  repeat apply fillerLoop_withinBudget. exact H3.
Qed.

Lemma bruteForcePhase_withinBudget n0 size maxForSize st :
  withinBudget n0 maxForSize st ->
  withinBudget n0 maxForSize
    (bruteForcePhase unitsData regionsData emblem1 emblem2 config size maxForSize st).
Proof.
  intros H. unfold bruteForcePhase. apply for_of_inv; auto.
  intros team s Hs.
  destruct (results_full (bump_checked s)); cbn [fst];
    [apply bump_withinBudget, Hs|].
  destruct (checkedCount (bump_checked s) >? maxForSize)%Z eqn:G; cbn [fst];
    [apply bump_withinBudget, Hs|].
  assert (G' : (checkedCount s + 1 <= maxForSize)%Z).
  { simpl in G. rewrite Z.gtb_ltb in G. apply Z.ltb_ge in G. exact G. }
  destruct Hs as [B1 B2].
  destruct (valid (isValidComposition regionsData team emblem1 emblem2)); cbn [fst].
  - unfold withinBudget.
    destruct (store_calls team (isValidComposition regionsData team emblem1 emblem2)
                (Some (sumCost team)) (bump_valid (record_call team (bump_checked s))))
      as [-> ->].
    cbn [validatorCalls checkedCount bump_valid record_call bump_checked length].
    rewrite Nat2Z.inj_succ. lia.
  - unfold withinBudget.
    cbn [validatorCalls checkedCount bump_invalid record_call bump_checked length].
    rewrite Nat2Z.inj_succ. lia.
Qed.

(** X17. One team-size iteration, smart and brute-force phase together, calls
    the validator at most [getMaxCombinationsForSize] times. *)
Theorem sizeIteration_budget size st :
  (Z.of_nat (length (validatorCalls
                       (sizeIteration unitsData regionsData emblem1 emblem2 config size st)))
   <= Z.of_nat (length (validatorCalls st))
      + getMaxCombinationsForSize size (length (filteredUnits unitsData config)))%Z.
Proof.
  set (mx := getMaxCombinationsForSize size (length (filteredUnits unitsData config))).
  assert (M : (0 <= mx)%Z).
  { unfold mx, getMaxCombinationsForSize.
    repeat match goal with |- context [if ?b then _ else _] => destruct b end; lia. }
  assert (B : withinBudget (length (validatorCalls st)) mx
                (sizeIteration unitsData regionsData emblem1 emblem2 config size st)).
  { unfold sizeIteration. cbv zeta. fold mx.
    assert (B0 : withinBudget (length (validatorCalls st)) mx (reset_counters st))
      by (unfold withinBudget; simpl; lia).
    match goal with |- context [if ?b then _ else _] => destruct b end.
    - apply bruteForcePhase_withinBudget, smartPhase_withinBudget, B0.
    - apply smartPhase_withinBudget, B0. }
  destruct B as [_ B]. lia.
Qed.

Lemma smartPhase_skipped size maxForSize st :
  size < 5 \/ targonUnits unitsData config = [] ->
  smartPhase unitsData regionsData emblem1 emblem2 config size maxForSize st = st.
Proof.
  intros H. unfold smartPhase. cbv zeta.
  replace ((5 <=? size) && _ && _ && (1 <=? length (targonUnits unitsData config)))
    with false; auto.
  symmetry. destruct H as [H| ->].
  - replace (5 <=? size) with false by (symmetry; apply Nat.leb_gt; lia). reflexivity.
  - simpl. rewrite !andb_false_r. reflexivity.
Qed.

Lemma bruteForcePhase_capped size maxForSize st :
  (Z.of_nat (length (results st)) <= MAX_TOTAL_RESULTS)%Z ->
  (Z.of_nat (length (results
       (bruteForcePhase unitsData regionsData emblem1 emblem2 config size maxForSize st)))
   <= MAX_TOTAL_RESULTS)%Z.
Proof.
  intros H. unfold bruteForcePhase.
  apply (for_of_inv (fun s => (Z.of_nat (length (results s)) <= MAX_TOTAL_RESULTS)%Z)); auto.
  intros team s Hs.
  destruct (results_full (bump_checked s)) eqn:F; cbn [fst]; auto.
  destruct (checkedCount (bump_checked s) >? maxForSize)%Z; cbn [fst]; auto.
  unfold results_full in F. simpl in F.
  destruct (valid (isValidComposition regionsData team emblem1 emblem2)); cbn [fst]; auto.
  unfold store. destruct (includes _ _); simpl; auto.
  rewrite length_app. simpl. unfold MAX_TOTAL_RESULTS in *. lia.
Qed.

(** X18. When no smart phase can run (every team size is below five, or the
    pool has no Targon unit), at most [MAX_TOTAL_RESULTS] results are
    returned. *)
Theorem solveWorldRunes_capped_without_smart_phase :
  effectiveMaxUnits unitsData config < 5 \/ targonUnits unitsData config = [] ->
  (Z.of_nat (length (solveWorldRunes unitsData regionsData emblem1 emblem2 config))
   <= MAX_TOTAL_RESULTS)%Z.
Proof.
  intros H.
  destruct (solveWorldRunes_perm unitsData regionsData emblem1 emblem2 config) as [E|P].
  - rewrite E. unfold MAX_TOTAL_RESULTS. simpl. lia.
  - rewrite (Permutation_length P). unfold searchLoop.
    apply (for_of_inv_In (fun s => (Z.of_nat (length (results s)) <= MAX_TOTAL_RESULTS)%Z)).
    + unfold MAX_TOTAL_RESULTS. simpl. lia.
    + intros size s Hs Hinv. destruct (results_full s); cbn [fst]; auto.
      unfold sizeIteration. cbv zeta. rewrite smartPhase_skipped.
      * destruct (bruteForceGate _); [apply bruteForcePhase_capped|]; exact Hinv.
      * destruct H as [H|H]; auto. left.
        unfold sizes in Hs. apply in_seq in Hs. lia.
Qed.
End BudgetFacts.

(* ================================================================= *)
(** ** Ranking *)

Lemma span_app {A} (p : A -> bool) (l : list A) :
  fst (span p l) ++ snd (span p l) = l /\ Forall (fun x => p x = true) (fst (span p l)).
Proof.
  induction l as [|x r [IH1 IH2]]; simpl; [split; [reflexivity | constructor]|].
  destruct (p x) eqn:E; [|split; [reflexivity | constructor]].
  destruct (span p r) as [g rest]. simpl in *. split; [congruence|].
  constructor; auto.
Qed.

Lemma pickBest_result prevSet (remaining : list SolverResult) k bestIdx bestDiff :
  pickBest prevSet remaining k bestIdx bestDiff = bestIdx
  \/ (k <= pickBest prevSet remaining k bestIdx bestDiff
      /\ pickBest prevSet remaining k bestIdx bestDiff < k + length remaining).
Proof.
  revert k bestIdx bestDiff.
  induction remaining as [|r rest IH]; intros k bestIdx bestDiff; simpl; auto.
  destruct (_ >? bestDiff)%Z.
  - destruct (IH (S k) k (Z.of_nat (symmetricDiffSize prevSet (unitIdSet r))))
      as [->|H]; right; lia.
  - destruct (IH (S k) bestIdx bestDiff) as [->|H]; [left; reflexivity | right; lia].
Qed.

Lemma pickBest_in_range prevSet (remaining : list SolverResult) :
  remaining <> [] -> pickBest prevSet remaining 0 0 (-1) < length remaining.
Proof.
  destruct remaining as [|r rest]; [congruence|]. intros _. simpl.
  destruct (_ >? -1)%Z eqn:E.
  - destruct (pickBest_result prevSet rest 1 0
                (Z.of_nat (symmetricDiffSize prevSet (unitIdSet r)))) as [->|H]; lia.
  - rewrite Z.gtb_ltb in E. apply Z.ltb_ge in E. lia.
Qed.

Lemma removeAt_perm {A} i (l : list A) x :
  nth_error l i = Some x -> Permutation (x :: removeAt i l) l.
Proof.
  revert i. induction l as [|y l IH]; intros [|i]; simpl; try discriminate.
  - intros [= ->]. apply Permutation_refl.
  - intros H. eapply perm_trans; [apply perm_swap|]. apply perm_skip, IH, H.
Qed.

Lemma greedy_perm n prev remaining :
  n = length remaining -> Permutation (greedy n prev remaining) remaining.
Proof.
  revert prev remaining. induction n as [|n IH]; intros prev remaining Hn; simpl.
  - destruct remaining; [constructor | discriminate].
  - assert (Hne : remaining <> []) by (destruct remaining; [discriminate | congruence]).
    pose proof (pickBest_in_range (unitIdSet prev) Hne) as R.
    destruct (nth_error remaining (pickBest (unitIdSet prev) remaining 0 0 (-1)))
      as [best|] eqn:E.
    + pose proof (removeAt_perm _ _ E) as Pm.
      eapply perm_trans; [|exact Pm]. apply perm_skip, IH.
      apply Permutation_length in Pm. simpl in Pm. lia.
    + apply nth_error_None in E. lia.
Qed.

Lemma diversify_perm group : Permutation (diversify group) group.
Proof.
  unfold diversify. destruct (length group <=? 1); auto.
  pose proof (sort_by_perm (fun a b => (signatureHash a - signatureHash b)%Z) group) as Ps.
  destruct (sort_by _ group) as [|first remaining]; auto.
  eapply perm_trans; [|exact Ps]. apply perm_skip, greedy_perm. reflexivity.
Qed.

Lemma sameGroup_refl current : sameGroup current current = true.
Proof. unfold sameGroup. rewrite !Nat.eqb_refl, Z.eqb_refl. reflexivity. Qed.

Lemma sameGroup_key current r : sameGroup current r = true -> rankKey r = rankKey current.
Proof.
  unfold sameGroup, rankKey. intros H.
  apply andb_true_iff in H. destruct H as [H H3].
  apply andb_true_iff in H. destruct H as [H1 H2].
  apply Nat.eqb_eq in H1, H3. apply Z.eqb_eq in H2. congruence.
Qed.

Lemma regroup_facts fuel l :
  length l <= fuel ->
  Permutation (regroup fuel l) l /\ map rankKey (regroup fuel l) = map rankKey l.
Proof.
  revert l. induction fuel as [|fuel IH]; intros l Hl.
  - destruct l; [simpl; auto | simpl in Hl; lia].
  - destruct l as [|current l']; [simpl; auto|].
    cbn [regroup].
    destruct (span_app (sameGroup current) (current :: l')) as [Sa Sf].
    destruct (span (sameGroup current) (current :: l')) as [group rest] eqn:Es.
    cbn [fst snd] in Sa, Sf.
    assert (Hg : group <> []).
    { simpl in Es. rewrite sameGroup_refl in Es.
      destruct (span (sameGroup current) l'). inversion Es. discriminate. }
    assert (Hr : length rest <= fuel).
    { apply (f_equal (@length _)) in Sa. rewrite length_app in Sa. simpl in Sa, Hl.
      destruct group; [congruence|]. simpl in Sa. lia. }
    destruct (IH rest Hr) as [P1 K1].
    pose proof (diversify_perm group) as Pd.
    split.
    + rewrite <- Sa. apply Permutation_app; auto.
    + rewrite <- Sa. rewrite !map_app, K1. f_equal.
      assert (C : forall g, Forall (fun x => sameGroup current x = true) g ->
                            map rankKey g = repeat (rankKey current) (length g)).
      { induction 1 as [|x g Hx _ IHg]; simpl; auto.
        rewrite IHg, (sameGroup_key _ _ Hx). reflexivity. }
      rewrite (C group Sf), C.
      * rewrite (Permutation_length Pd). reflexivity.
      * apply Forall_forall. intros x Hx. rewrite Forall_forall in Sf.
        apply Sf. eapply Permutation_in; eauto.
Qed.

Lemma baseCompare_le (a b : SolverResult) :
  (baseCompare a b <= 0)%Z
  <-> unitCount a < unitCount b
      \/ (unitCount a = unitCount b
          /\ ((getTotalCost a < getTotalCost b)%Z
              \/ (getTotalCost a = getTotalCost b
                  /\ (getFourCostCount a < getFourCostCount b
                      \/ (getFourCostCount a = getFourCostCount b
                          /\ (signatureHash a <= signatureHash b)%Z))))).
Proof.
  unfold baseCompare.
  destruct (Nat.eqb_spec (unitCount a) (unitCount b)); simpl; [|lia].
  destruct (Z.eqb_spec (getTotalCost a) (getTotalCost b)); simpl; [|lia].
  destruct (Nat.eqb_spec (getFourCostCount a) (getFourCostCount b)); simpl; lia.
Qed.

Lemma rankResults_perm (rs : list SolverResult) :
  Permutation (rankResults rs) rs.
Proof.
  unfold rankResults. cbv zeta.
  eapply perm_trans; [apply regroup_facts; lia | apply sort_by_perm].
Qed.

Lemma rankResults_keys_sorted (rs : list SolverResult) :
  StronglySorted rankKey_le (map rankKey (rankResults rs)).
Proof.
  unfold rankResults. cbv zeta.
  rewrite (proj2 (regroup_facts (sort_by baseCompare rs) (le_n _))).
  assert (Hs : StronglySorted (fun a b => (baseCompare a b <= 0)%Z) (sort_by baseCompare rs)).
  { apply sort_by_sorted.
    - intros a b H.
      assert (~ (baseCompare a b <= 0)%Z) by lia.
      rewrite baseCompare_le in *. lia.
    - intros a b c. rewrite !baseCompare_le. lia. }
  induction Hs as [|a s Hs IH F]; simpl; constructor; auto.
  apply Forall_forall. intros k Hk. apply in_map_iff in Hk. destruct Hk as [b [<- Hb]].
  rewrite Forall_forall in F. specialize (F b Hb). apply baseCompare_le in F.
  unfold rankKey_le, rankKey. lia.
Qed.

(* ================================================================= *)
(** ** The unlock filter, continued *)

Lemma dedupMap_facts (rs : list SolverResult) (m0 : list (string * SolverResult)) :
  let m := fold_left
             (fun m r => if dedup_has m (unitSignature r) then m
                         else m ++ [(unitSignature r, r)]) rs m0 in
  (NoDup (map fst m0) -> NoDup (map fst m))
  /\ (Forall (fun e => fst e = unitSignature (snd e)) m0 ->
      Forall (fun e => fst e = unitSignature (snd e)) m)
  /\ (forall r, In r rs -> In (unitSignature r) (map fst m))
  /\ (forall k, In k (map fst m0) -> In k (map fst m)).
Proof.
  revert m0. induction rs as [|r rs IH]; intros m0; simpl.
  - repeat split; auto. intros r [].
  - assert (Hh : forall m k, dedup_has m k = true <-> In k (map fst m)).
    { intros m k. unfold dedup_has. rewrite existsb_exists. split.
      - intros [e [He E]]. apply String.eqb_eq in E. subst. apply in_map, He.
      - intros H. apply in_map_iff in H. destruct H as [e [<- He]].
        exists e. split; auto. apply String.eqb_refl. }
    destruct (dedup_has m0 (unitSignature r)) eqn:E.
    + destruct (IH m0) as [N [F [I K]]]. repeat split; auto.
      intros x [<-|Hx]; auto. apply K, Hh, E.
    + destruct (IH (m0 ++ [(unitSignature r, r)])) as [N [F [I K]]].
      repeat split.
      * intros H. apply N. rewrite map_app. simpl. apply NoDup_app; auto.
        -- repeat constructor. intros [].
        -- intros k Hk [<-|[]]. apply Hh in Hk. congruence.
      * intros H. apply F, Forall_app. split; auto.
      * intros x [<-|Hx]; auto. apply K. rewrite map_app. apply in_or_app. simpl; auto.
      * intros k Hk. apply K. rewrite map_app. apply in_or_app. auto.
Qed.

(** X19. Every result the unlock filter keeps is an input result without a
    locked unit; the kept results have pairwise distinct signatures; and
    every input result without a locked unit has its signature among them. *)
Theorem applyUnlockFilter_kept (rs : list SolverResult) (unlockedIds : list string) :
  let kept := filtered (applyUnlockFilter rs unlockedIds) in
  (forall r, In r kept ->
     In r rs /\ forall u, In u (units (composition r)) -> isLocked unlockedIds u = false)
  /\ NoDup (map unitSignature kept)
  /\ (forall r, In r rs ->
        (forall u, In u (units (composition r)) -> isLocked unlockedIds u = false) ->
        In (unitSignature r) (map unitSignature kept)).
Proof.
  intros kept. unfold kept, applyUnlockFilter. cbn [filtered].
  set (f0 := filter (fun r => negb (existsb (isLocked unlockedIds) (units (composition r)))) rs).
  destruct (dedupMap_from f0 []) as [H1 _]. fold (dedupMap f0) in H1.
  destruct (dedupMap_facts f0 []) as [N [F [I _]]]. fold (dedupMap f0) in N, F, I.
  assert (Sig : map unitSignature (map snd (dedupMap f0)) = map fst (dedupMap f0)).
  { specialize (F (Forall_nil _)). rewrite map_map. apply map_ext_in.
    intros e He. rewrite Forall_forall in F. symmetry. apply F, He. }
  split; [|split].
  - intros r Hr. apply in_map_iff in Hr. destruct Hr as [e [<- He]].
    destruct (H1 e He) as [[]|H]. apply filter_In in H. destruct H as [Hin Hl].
    split; auto. intros u Hu. apply negb_true_iff in Hl.
    destruct (isLocked unlockedIds u) eqn:E; auto.
    assert (existsb (isLocked unlockedIds) (units (composition (snd e))) = true)
      by (apply existsb_exists; eauto).
    congruence.
  - rewrite Sig. apply N. constructor.
  - intros r Hr Hu. rewrite Sig. apply I. apply filter_In. split; auto.
    apply negb_true_iff. destruct (existsb _ _) eqn:E; auto.
    apply existsb_exists in E. destruct E as [u [Iu Lu]]. rewrite (Hu u Iu) in Lu.
    discriminate.
Qed.

Lemma distinct_by_id_facts (us : list Unit) (seen : list string) :
  NoDup (map id (distinct_by_id seen us))
  /\ incl (distinct_by_id seen us) us
  /\ (forall i, In i (map id (distinct_by_id seen us)) <-> In i (map id us) /\ ~ In i seen).
Proof.
  revert seen. induction us as [|u us IH]; intros seen; simpl.
  - split; [constructor|]. split; [apply incl_refl | tauto].
  - destruct (includes seen (id u)) eqn:E.
    + apply includes_In in E. destruct (IH seen) as [N [I M]].
      split; [exact N|]. split; [apply incl_tl, I|].
      intros i. rewrite M. split; [tauto|]. intros [[<-|H] H']; tauto.
    + assert (E' : ~ In (id u) seen)
        by (intros H; apply includes_In in H; congruence).
      destruct (IH (seen ++ [id u])) as [N [I M]].
      split; [|split].
      * simpl. constructor; auto. intros H. apply M in H.
        destruct H as [_ H]. apply H, in_or_app. simpl; auto.
      * intros x [<-|Hx]; [left; reflexivity | right; apply I, Hx].
      * intros i. simpl. rewrite M, in_app_iff. simpl. split.
        -- intros [<-|[H H']]; [auto | tauto].
        -- intros [[<-|H] H']; auto.
           destruct (string_dec (id u) i) as [->|Hne]; auto.
           right. split; auto. intros [H''|[H''|[]]]; auto.
Qed.

(** X20. When there are unlock suggestions, the filtered minimum exceeds the
    overall minimum, and the suggestions are, without repeated ids, the
    locked units of one input result of minimal unit count that needs the
    fewest locked units among those. *)
Theorem unlockSuggestions_spec (rs : list SolverResult) (unlockedIds : list string) :
  let v := applyUnlockFilter rs unlockedIds in
  unlockSuggestions v <> [] ->
  minimalAll v < minimalFiltered v
  /\ exists best,
       In best rs /\ unitCount best = minimalAll v
       /\ (forall r, In r rs -> unitCount r = minimalAll v ->
             lockedCount unlockedIds best <= lockedCount unlockedIds r)
       /\ NoDup (map id (unlockSuggestions v))
       /\ (forall u, In u (unlockSuggestions v) ->
             In u (units (composition best)) /\ isLocked unlockedIds u = true)
       /\ (forall u, In u (units (composition best)) -> isLocked unlockedIds u = true ->
             In (id u) (map id (unlockSuggestions v))).
Proof.
  intros v. unfold v, applyUnlockFilter. cbn [unlockSuggestions minimalAll minimalFiltered].
  set (minAll := min_or_0 (map unitCount rs)).
  set (minF := min_or_0 _).
  set (cmp := fun a b : SolverResult => (_ - _)%Z).
  set (mins := filter (fun r => unitCount r =? minAll) rs).
  destruct (minAll <? minF) eqn:Hh; [|intros H; exfalso; apply H; reflexivity].
  destruct (length mins =? 0); [intros H; exfalso; apply H; reflexivity|].
  cbn [andb negb].
  pose proof (sort_by_perm cmp mins) as Pm.
  assert (Hs : StronglySorted (fun a b => (cmp a b <= 0)%Z) (sort_by cmp mins)).
  { apply sort_by_sorted; unfold cmp; intros; lia. }
  destruct (sort_by cmp mins) as [|best rest]; [intros H; exfalso; apply H; reflexivity|].
  intros _. split; [apply Nat.ltb_lt, Hh|].
  assert (Hb : In best mins) by (apply (Permutation_in _ Pm); left; reflexivity).
  apply filter_In in Hb. destruct Hb as [Hb1 Hb2]. apply Nat.eqb_eq in Hb2.
  destruct (distinct_by_id_facts
              (filter (isLocked unlockedIds) (units (composition best))) [])
    as [N [I M]].
  exists best. split; [exact Hb1|]. split; [exact Hb2|]. split; [|split; [exact N|split]].
  - intros r Hr Hu.
    assert (Hr' : In r (best :: rest)).
    { apply (Permutation_in _ (Permutation_sym Pm)). apply filter_In. split; auto.
      apply Nat.eqb_eq, Hu. }
    inversion Hs as [|a s Hs' F]; subst.
    destruct Hr' as [<-|Hr']; [lia|].
    rewrite Forall_forall in F. specialize (F r Hr'). unfold cmp in F.
    unfold lockedCount. lia.
  - intros u Hu. apply I in Hu. apply filter_In in Hu. exact Hu.
  - intros u Hu Hl. apply M. split; [|intros []].
    apply in_map, filter_In. auto.
Qed.

(** X21. The ranked list is a permutation of the filtered list, is ordered by
    (unit count, total cost, number of cost-4 units) lexicographically, and
    its first entry has the minimal unit count of the filtered list. *)
Theorem rankResults_spec (rs : list SolverResult) :
  Permutation (rankResults rs) rs
  /\ StronglySorted rankKey_le (map rankKey (rankResults rs))
  /\ minimalUnitCount (rankResults rs) = min_or_0 (map unitCount rs).
Proof.
  pose proof (rankResults_perm rs) as P.
  pose proof (rankResults_keys_sorted rs) as Hs.
  split; [exact P|]. split; [exact Hs|].
  destruct (rankResults rs) as [|r l] eqn:E.
  - apply Permutation_nil in P. subst. reflexivity.
  - simpl. apply Nat.le_antisymm.
    + assert (Hne : map unitCount rs <> []).
      { intros H. apply map_eq_nil in H. subst.
        apply Permutation_sym, Permutation_nil in P. discriminate. }
      apply min_or_0_in in Hne. apply in_map_iff in Hne.
      destruct Hne as [m [Em Hm]]. rewrite <- Em.
      apply (Permutation_in _ (Permutation_sym P)) in Hm.
      destruct Hm as [<-|Hm]; [lia|].
      simpl in Hs. inversion Hs as [|a s _ F]; subst.
      rewrite Forall_forall in F.
      specialize (F (rankKey m) (in_map _ _ _ Hm)).
      unfold rankKey_le, rankKey in F. lia.
    + apply min_or_0_le, in_map, (Permutation_in _ P). left. reflexivity.
Qed.

(* ================================================================= *)
(** ** Catalog accessors, page and board *)

(** X22. [getRegionById] and [getUnitById] return nothing exactly for an id
    that is not in the catalog, and otherwise a catalog entry with that id;
    [getUnitsByRegions] of one region is [getUnitsByRegion], and of no
    region is empty. *)
Theorem catalog_lookups (unitsData : list Unit) (regionsData : list Region) (i : string) :
  (getRegionById regionsData i = None <-> ~ In i (getAllRegionIds regionsData))
  /\ (forall r, getRegionById regionsData i = Some r ->
        region_id r = i /\ In r regionsData)
  /\ (getUnitById unitsData i = None <-> ~ In i (map id unitsData))
  /\ (forall u, getUnitById unitsData i = Some u -> id u = i /\ In u unitsData)
  /\ getUnitsByRegions unitsData [i] = getUnitsByRegion unitsData i
  /\ getUnitsByRegions unitsData [] = [].
Proof.
  assert (G : forall A (key : A -> string) (l : list A),
             (find (fun x => String.eqb (key x) i) l = None <-> ~ In i (map key l))
             /\ (forall x, find (fun x => String.eqb (key x) i) l = Some x ->
                   key x = i /\ In x l)).
  { intros A key l. split; [split|].
    - intros F H. apply in_map_iff in H. destruct H as [x [E Hx]].
      apply (find_none _ _ F) in Hx. rewrite E, String.eqb_refl in Hx. discriminate.
    - intros H. destruct (find _ l) as [x|] eqn:F; auto.
      apply find_some in F. destruct F as [Hx E]. apply String.eqb_eq in E.
      exfalso. apply H. rewrite <- E. apply in_map, Hx.
    - intros x F. apply find_some in F. destruct F as [Hx E].
      apply String.eqb_eq in E. auto. }
  destruct (G Region region_id regionsData) as [R1 R2].
  destruct (G Unit id unitsData) as [U1 U2].
  split; [exact R1|]. split; [exact R2|]. split; [exact U1|]. split; [exact U2|].
  split.
  - unfold getUnitsByRegions, getUnitsByRegion. apply filter_ext. intros u.
    unfold includes. simpl. induction (regions u) as [|x l IH]; simpl; auto.
    rewrite IH, orb_false_r, String.eqb_sym. reflexivity.
  - unfold getUnitsByRegions. clear.
    assert (E : forall rs : list string, existsb (includes []) rs = false)
      by (induction rs; simpl; auto).
    induction unitsData as [|u l IH]; simpl; auto.
    rewrite E. exact IH.
Qed.

(** X23. [toggleUnlocked] flips whether the id is in the list and changes no
    other membership; it keeps a list free of repetitions; toggling twice
    restores every membership. *)
Theorem toggleUnlocked_spec (prev : list string) (i x : string) :
  (In x (toggleUnlocked prev i)
   <-> (x <> i /\ In x prev) \/ (x = i /\ ~ In i prev))
  /\ (NoDup prev -> NoDup (toggleUnlocked prev i))
  /\ (In x (toggleUnlocked (toggleUnlocked prev i) i) <-> In x prev).
Proof.
  assert (M : forall p y, In y (toggleUnlocked p i)
                          <-> (y <> i /\ In y p) \/ (y = i /\ ~ In i p)).
  { intros p y. unfold toggleUnlocked. destruct (includes p i) eqn:E.
    - apply includes_In in E. rewrite filter_In, negb_true_iff, String.eqb_neq. tauto.
    - assert (~ In i p) by (intros H; apply includes_In in H; congruence).
      rewrite in_app_iff. simpl.
      destruct (string_dec y i) as [->|Hne]; [tauto|]. intuition congruence. }
  split; [apply M|]. split.
  - intros N. unfold toggleUnlocked. destruct (includes prev i) eqn:E.
    + apply NoDup_filter, N.
    + apply NoDup_app; auto.
      * repeat constructor. intros [].
      * intros y Hy [<-|[]]. apply includes_In in Hy. congruence.
  - rewrite M, !M. destruct (string_dec x i) as [->|Hne]; [|tauto].
    destruct (In_dec string_dec i prev); tauto.
Qed.

(** X24. The board has exactly [boardSize] cells: the first units of the
    composition, then empty cells; units beyond [boardSize] get no cell. *)
Theorem boardCells_spec (us : list Unit) (boardSize : nat) :
  length (boardCells us boardSize) = boardSize
  /\ boardCells us boardSize
     = map Some (firstn boardSize us) ++ repeat None (boardSize - length us).
Proof.
  split; [unfold boardCells; rewrite length_map, length_seq; reflexivity|].
  unfold boardCells. revert us. induction boardSize as [|n IH]; intros us; [reflexivity|].
  rewrite <- cons_seq, <- seq_shift, map_cons, map_map.
  destruct us as [|u us]; simpl.
  - f_equal. specialize (IH []). simpl in IH. rewrite firstn_nil, Nat.sub_0_r in IH.
    simpl in IH. rewrite <- IH. apply map_ext. intros a. reflexivity.
  - f_equal. rewrite <- IH. apply map_ext. intros a. reflexivity.
Qed.

Lemma emblem_get_set m k v x :
  emblem_get (emblem_set m k v) x = if String.eqb x k then Some v else emblem_get m x.
Proof.
  induction m as [|[k' v'] m IH]; simpl.
  - destruct (String.eqb x k); reflexivity.
  - destruct (String.eqb k k') eqn:E; simpl.
    + apply String.eqb_eq in E. subst k'. destruct (String.eqb x k); reflexivity.
    + destruct (String.eqb x k') eqn:E'.
      * apply String.eqb_eq in E'. subst k'. rewrite String.eqb_sym in E. rewrite E.
        reflexivity.
      * exact IH.
Qed.

Lemma find_append {A} (p : A -> bool) (l1 l2 : list A) :
  find p (l1 ++ l2) = match find p l1 with Some x => Some x | None => find p l2 end.
Proof. induction l1 as [|x l1 IH]; simpl; auto. destruct (p x); auto. Qed.

Lemma emblemMap_get (assignments : list EmblemAssignment) (uid : string) :
  emblem_get (emblemMap assignments) uid
  = option_map region (find (fun a => String.eqb uid (unitId a)) (rev assignments)).
Proof.
  unfold emblemMap.
  assert (G : forall m,
             emblem_get (fold_left (fun m a => emblem_set m (unitId a) (region a))
                                   assignments m) uid
             = match find (fun a => String.eqb uid (unitId a)) (rev assignments) with
               | Some a => Some (region a)
               | None => emblem_get m uid
               end).
  { induction assignments as [|a l IH]; intros m; simpl; auto.
    rewrite IH, find_append.
    destruct (find _ (rev l)); auto. simpl.
    rewrite emblem_get_set. destruct (String.eqb uid (unitId a)); reflexivity. }
  rewrite G. destruct (find _ (rev assignments)); reflexivity.
Qed.

(** X25. The emblem map gives a unit the region of the last assignment that
    names it; when both emblems are assigned to the same unit, only the
    second emblem is recorded for it. *)
Theorem emblemMap_last_wins (assignments : list EmblemAssignment) (u1 u2 e1 e2 uid : string) :
  emblem_get (emblemMap assignments) uid
  = option_map region (find (fun a => String.eqb uid (unitId a)) (rev assignments))
  /\ emblem_get (emblemMap [mkAssignment u1 e1; mkAssignment u2 e2]) u2 = Some e2
  /\ emblem_get (emblemMap [mkAssignment u1 e1; mkAssignment u2 e2]) u1
     = Some (if String.eqb u1 u2 then e2 else e1).
Proof.
  split; [apply emblemMap_get|]. rewrite !emblemMap_get. simpl.
  rewrite !String.eqb_refl. split; [reflexivity|].
  destruct (String.eqb u1 u2); reflexivity.
Qed.

(* ================================================================= *)
(** ** The further properties at concrete inputs *)

(** X2 at a concrete input. *)
Lemma generateCombinations_complete_witness :
  In [1; 3] (generateCombinations [1; 2; 3] 2 10%Z)
  <-> subseq [1; 3] [1; 2; 3] /\ length [1; 3] = 2.
Proof.
  apply (@generateCombinations_complete _ [1; 2; 3] 2 10%Z). simpl. lia.
Defined.

(** X8 at a concrete input. *)
Lemma solveWorldRunes_summaries_witness :
  unitCount voidWholePool = length (units (composition voidWholePool))
  /\ regionCount voidWholePool = length (activeRegions (composition voidWholePool))
  /\ (totalCost voidWholePool = None
      \/ totalCost voidWholePool = Some (sumCost (units (composition voidWholePool)))).
Proof.
  apply (solveWorldRunes_summaries voidUnitsData voidRegions "demacia" "noxus" config5).
  vm_compute. right; right; left; reflexivity.
Defined.

(** X9 at a concrete input. *)
Lemma solveWorldRunes_active_regions_witness :
  NoDup (activeRegions (composition voidWholePool))
  /\ 4 <= length (activeRegions (composition voidWholePool))
  /\ forall x, In x (activeRegions (composition voidWholePool))
               <-> regionActive voidRegions (units (composition voidWholePool))
                                "demacia" "noxus" x.
Proof.
  apply (solveWorldRunes_active_regions voidUnitsData voidRegions "demacia" "noxus" config5).
  vm_compute. right; right; left; reflexivity.
Defined.

(** X10 at a concrete input. *)
Lemma solveWorldRunes_size_bounds_witness :
  unitCount voidWholePool <= maxUnits config5
  /\ unitCount voidWholePool <= maxBoardSize config5
  /\ unitCount voidWholePool <= length (filteredUnits voidUnitsData config5)
  /\ (NoDup (map id voidUnitsData) -> minUnits config5 <= unitCount voidWholePool).
Proof.
  apply (solveWorldRunes_size_bounds voidUnitsData voidRegions "demacia" "noxus" config5).
  vm_compute. right; right; left; reflexivity.
Defined.

(** X11 at a concrete input. *)
Lemma solveWorldRunes_units_from_pool_witness :
  In (unit_of "g" 4 ["ionia"]%string) voidUnitsData
  /\ allowed config5 (unit_of "g" 4 ["ionia"]%string) = true.
Proof.
  apply (solveWorldRunes_units_from_pool voidUnitsData voidRegions "demacia" "noxus"
           config5 voidWholePool).
  - vm_compute. right; right; left; reflexivity.
  - vm_compute. right; right; right; right; left; reflexivity.
Defined.

(** X13 at a concrete input. *)
Lemma solveWorldRunes_few_regions_witness :
  solveWorldRunes plainUnitsData threeRegions "a" "b" config45 = [].
Proof. apply solveWorldRunes_few_regions. simpl. lia. Defined.


(** X16 at a concrete input. *)
Lemma prechecked_loop_calls_witness :
  In piltoverTeam (validatorCalls initialState)
  \/ prefilter crowdedRegions "a" "b" piltoverTeam = true.
Proof.
  apply (prechecked_loop_calls crowdedUnitsData crowdedRegions "a" "b" config5
           uniqueUnits 5 50000 [] [] (unit_of "t1" 2 ["targon"]%string)
           [[unit_of "p1" 3 ["piltover"]; unit_of "p2" 3 ["piltover"]]%string]
           initialState).
  vm_compute. repeat (first [left; reflexivity | right]).
Defined.

(** X18 at a concrete input. *)
Lemma solveWorldRunes_capped_without_smart_phase_witness :
  (Z.of_nat (length (solveWorldRunes plainUnitsData plainRegions "a" "b" config45))
   <= MAX_TOTAL_RESULTS)%Z.
Proof.
  apply solveWorldRunes_capped_without_smart_phase. right. reflexivity.
Defined.

(** X20 at a concrete input. *)
Lemma unlockSuggestions_spec_witness :
  minimalAll (applyUnlockFilter [lockedResult; openResult] [])
  < minimalFiltered (applyUnlockFilter [lockedResult; openResult] [])
  /\ exists best,
       In best [lockedResult; openResult]
       /\ unitCount best = minimalAll (applyUnlockFilter [lockedResult; openResult] [])
       /\ (forall r, In r [lockedResult; openResult] ->
             unitCount r = minimalAll (applyUnlockFilter [lockedResult; openResult] []) ->
             lockedCount [] best <= lockedCount [] r)
       /\ NoDup (map id (unlockSuggestions (applyUnlockFilter [lockedResult; openResult] [])))
       /\ (forall u, In u (unlockSuggestions (applyUnlockFilter [lockedResult; openResult] [])) ->
             In u (units (composition best)) /\ isLocked [] u = true)
       /\ (forall u, In u (units (composition best)) -> isLocked [] u = true ->
             In (id u) (map id (unlockSuggestions
                                  (applyUnlockFilter [lockedResult; openResult] [])))).
Proof.
  apply (unlockSuggestions_spec [lockedResult; openResult] []).
  vm_compute. discriminate.
Defined.
